(** * Conway's Game of Life with boundary tracking

    A shallow embedding of the simulation core of
    [Entertainment/ConwaysGameOfLife.ipynb]: the periodic boundary
    conditions [PBC], the neighbourhood [contour], the [boundary] of an
    alive set, the neighbour count [contour_alive_sum] and the rule engine
    [evolution].

    Python integers are unbounded, so coordinates and counters are [Z].
    A Python [set] of coordinate tuples is a [gset (Z * Z)]; a [for] loop
    over a set is a [set_fold] (the results below do not depend on the
    iteration order).  The notebook fixes the two grid dimensions as the
    module constants [GRID_WIDTH = 100] and [GRID_HEIGHT = 100]; here they
    are section variables, so that every function takes the width and the
    height as its first two arguments once the section is closed, and the
    notebook's own grid is the instance [100 100].

    The driver is embedded after the core: the initial configurations
    [random_config], [pulsars] and [gosper_glider_gun], the rendering
    [drawGrid], and [main] as its initialisation [main_init] and its event
    loop [main_loop].  Random draws and events are inputs; the window is
    kept cell by cell. *)

From stdpp Require Import base numbers list sets gmap fin_sets strings.

Local Open Scope Z_scope.

Abbreviation cell := (Z * Z)%type.

(** ** The program *)

Section Program.

Variables GRID_WIDTH GRID_HEIGHT : Z.

(** [def PBC(coord_0, coord_1)].  Python's [%] is the floored remainder,
    which is [Z.modulo] for every non-zero divisor.  A zero divisor, for
    which Python raises, cannot occur with the notebook's constants; the
    statements below that speak about the value of the remainder assume
    positive dimensions. *)
Definition PBC (coord_0 coord_1 : Z) : cell :=
  let coord_0 :=
    if (coord_0 <? 0) || (coord_0 >=? GRID_WIDTH)
    then coord_0 `mod` GRID_WIDTH else coord_0 in
  let coord_1 :=
    if (coord_1 <? 0) || (coord_1 >=? GRID_HEIGHT)
    then coord_1 `mod` GRID_HEIGHT else coord_1 in
  (coord_0, coord_1).

(** [set.add] *)
Definition add (s : gset cell) (c : cell) : gset cell := s ∪ {[ c ]}.

(** [def contour(coord)]: eight [add]s to an empty set, in source order. *)
Definition contour (coord : cell) : gset cell :=
  let contour := ∅ in
  let contour := add contour (PBC (coord.1 - 1) (coord.2 + 1)) in
  let contour := add contour (PBC (coord.1) (coord.2 + 1)) in
  let contour := add contour (PBC (coord.1 + 1) (coord.2 + 1)) in
  let contour := add contour (PBC (coord.1 + 1) (coord.2)) in
  let contour := add contour (PBC (coord.1 + 1) (coord.2 - 1)) in
  let contour := add contour (PBC (coord.1) (coord.2 - 1)) in
  let contour := add contour (PBC (coord.1 - 1) (coord.2 - 1)) in
  let contour := add contour (PBC (coord.1 - 1) (coord.2)) in
  contour.

(** [def boundary(alive_set)] *)
Definition boundary (alive_set : gset cell) : gset cell :=
  let boundary_set :=
    set_fold (λ cell_coord boundary_set, boundary_set ∪ contour cell_coord)
             ∅ alive_set in
  boundary_set ∖ alive_set.

(** [def contour_alive_sum(coord, alive_set)] *)
Definition contour_alive_sum (coord : cell) (alive_set : gset cell) : Z :=
  set_fold (λ c count, if decide (c ∈ alive_set) then count + 1 else count)
           0 (contour coord).

(** [def evolution(alive_set, boundary_set)] *)
Definition evolution (alive_set boundary_set : gset cell) : gset cell :=
  let alive_set_next := ∅ in
  let alive_set_next :=
    set_fold (λ cell alive_set_next,
                if (2 <=? contour_alive_sum cell alive_set)
                   && (contour_alive_sum cell alive_set <=? 3)
                then add alive_set_next cell else alive_set_next)
             alive_set_next alive_set in
  let alive_set_next :=
    set_fold (λ void alive_set_next,
                if contour_alive_sum void alive_set =? 3
                then add alive_set_next void else alive_set_next)
             alive_set_next boundary_set in
  alive_set_next.

(** The simulation step inside the loop of [main]:
    [alive_set = evolution(alive_set, boundary_set)] followed by
    [boundary_set = boundary(alive_set)]. *)
Definition tick (state : gset cell * gset cell) : gset cell * gset cell :=
  let alive_set := evolution state.1 state.2 in
  let boundary_set := boundary alive_set in
  (alive_set, boundary_set).

End Program.

(** The two phases of the blinker used by the oscillation property. *)
Definition blinker_h : gset cell := {[ (4, 5); (5, 5); (6, 5) ]}.
Definition blinker_v : gset cell := {[ (5, 4); (5, 5); (5, 6) ]}.

(** ** Reference notions, following the specification's wording *)

(** A cell lies in [[0,W) x [0,H)]. *)
Definition in_grid (W H : Z) (c : cell) : Prop :=
  (0 ≤ c.1 < W) ∧ (0 ≤ c.2 < H).

#[global] Instance in_grid_dec W H c : Decision (in_grid W H c).
Proof. unfold in_grid. apply _. Defined.

(** The full grid as a finite set: every [(x, y)] with [0 ≤ x < W] and
    [0 ≤ y < H]. *)
Definition grid (W H : Z) : gset cell :=
  list_to_set (x ← seqZ 0 W; (λ y, (x, y)) <$> seqZ 0 H).

(** True mathematical modulo on each axis independently. *)
Definition torus (W H : Z) (c : cell) : cell := (c.1 `mod` W, c.2 `mod` H).

(** The eight offsets of the Moore neighbourhood: the 3 x 3 block around a
    cell without its centre. *)
Definition moore_offsets : list cell :=
  [ (-1, 1); (0, 1); (1, 1); (1, 0); (1, -1); (0, -1); (-1, -1); (-1, 0) ].

Definition shift (c d : cell) : cell := (c.1 + d.1, c.2 + d.2).

(** The toroidal neighbours of a cell, as a set (coinciding neighbours on
    very small grids are deduplicated). *)
Definition neighbors (W H : Z) (c : cell) : gset cell :=
  list_to_set ((λ d, torus W H (shift c d)) <$> moore_offsets).

(** The number of toroidal neighbours of [c] present in [A]. *)
Definition alive_neighbors (W H : Z) (c : cell) (A : gset cell) : Z :=
  Z.of_nat (size (neighbors W H c ∩ A)).

(** The Game of Life rule at one cell: survival with two or three alive
    neighbours, birth with exactly three. *)
Definition life_rule (alive : Prop) (n : Z) : Prop :=
  (alive ∧ (n = 2 ∨ n = 3)) ∨ (¬ alive ∧ n = 3).

(** The dense reference step: the rule evaluated at every cell of the full
    grid. *)
Definition dense_step (W H : Z) (A : gset cell) : gset cell :=
  filter (λ c, life_rule (c ∈ A) (alive_neighbors W H c A)) (grid W H).

(** ** The driver: initial configurations, rendering and the main loop *)

(** A colour is an RGB triple. *)
Abbreviation colour := (Z * Z * Z)%type.

Definition DEAD_COLOR : colour := (255, 255, 255).
Definition ALIVE_COLOR : colour := (0, 0, 0).

(** [pygame.K_SPACE] against every other key. *)
Inductive key := K_SPACE | K_OTHER.

(** The events [main] reacts to; [MOUSEBUTTONDOWN] carries the pixel
    position that [pygame.mouse.get_pos()] returns while the event is
    handled, [OTHER] stands for every event type [main] ignores. *)
Inductive event :=
  | QUIT
  | MOUSEBUTTONDOWN (pos : Z * Z)
  | KEYDOWN (k : key)
  | OTHER.

(** The local variables of [main] that live across loop iterations.  The
    window surface is kept cell by cell: the entry at [(x, y)] is the
    colour of the rectangle
    [Rect(x*CELL_SIZE, y*CELL_SIZE, CELL_SIZE, CELL_SIZE)]; rectangles of
    distinct cells do not overlap. *)
Record loop_state := LoopState {
  alive_set : gset cell;
  boundary_set : gset cell;
  window : gmap cell colour;
  run : bool;
  pause : bool
}.

Section Driver.

Variables GRID_WIDTH GRID_HEIGHT : Z.

(** The pixel-to-cell mapping of the click handler,
    [(math.floor(pos[0] / CELL_SIZE), math.floor(pos[1] / CELL_SIZE))],
    is floating-point arithmetic and is taken as a parameter. *)
Variable cell_of_pos : Z * Z → cell.

(** [def random_config()].  The values returned by the successive calls of
    [random.randint(0, 1)] are an input: [randint n] is the value of call
    number [n].  The number of calls made so far is threaded through the
    two loops and returned beside the alive set. *)
Definition random_config (randint : nat → Z) : gset cell * nat :=
  let alive_set := ∅ in
  foldl (λ '(alive_set, calls) y,
           foldl (λ '(alive_set, calls) x,
                    if randint calls =? 1
                    then (add alive_set (x, y), S calls)
                    else (alive_set, S calls))
                 (alive_set, calls) (seqZ 0 GRID_WIDTH))
        (alive_set, 0%nat) (seqZ 0 GRID_HEIGHT).

(** [def pulsars()]: [set] of the list literal; Python's [//] is the
    floored quotient. *)
Definition pulsars : gset cell :=
  let c0 := GRID_WIDTH `div` 2 in
  let c1 := GRID_HEIGHT `div` 2 in
  list_to_set [
    (c0, c1 - 2); (c0, c1 - 3); (c0, c1 - 4); (c0, c1 + 3); (c0, c1 + 4);
    (c0, c1 + 5); (c0 + 1, c1 - 1); (c0 + 1, c1 - 2); (c0 + 1, c1 + 2);
    (c0 + 1, c1 + 3); (c0 + 2, c1 - 1); (c0 + 2, c1 + 2); (c0 + 3, c1 - 1);
    (c0 + 3, c1 + 2); (c0 - 3, c1 - 2); (c0 - 3, c1 - 3); (c0 - 3, c1 - 4);
    (c0 - 3, c1 + 3); (c0 - 3, c1 + 4); (c0 - 3, c1 + 5); (c0 - 4, c1 - 1);
    (c0 - 4, c1 - 2); (c0 - 4, c1 + 2); (c0 - 4, c1 + 3); (c0 - 5, c1 - 1);
    (c0 - 5, c1 + 2); (c0 - 6, c1 - 1); (c0 - 6, c1 + 2); (c0 - 9, c1 - 1);
    (c0 - 9, c1 - 2); (c0 - 9, c1 - 3); (c0 - 9, c1 + 3); (c0 - 9, c1 + 4);
    (c0 - 9, c1 + 5); (c0 - 9, c1 - 1); (c0 - 9, c1 - 2); (c0 - 9, c1 - 3);
    (c0 - 9, c1 + 5); (c0 - 9, c1 + 3); (c0 - 9, c1 + 4); (c0 - 14, c1 - 1);
    (c0 - 14, c1 - 2); (c0 - 14, c1 - 3); (c0 - 14, c1 + 5);
    (c0 - 14, c1 + 3); (c0 - 14, c1 + 4); (c0 - 16, c1 - 1);
    (c0 - 16, c1 - 2); (c0 - 16, c1 - 3); (c0 - 16, c1 + 5);
    (c0 - 16, c1 + 3); (c0 - 16, c1 + 4); (c0 - 21, c1 - 1);
    (c0 - 21, c1 - 2); (c0 - 21, c1 - 3); (c0 - 21, c1 + 5);
    (c0 - 21, c1 + 3); (c0 - 21, c1 + 4); (c0 - 11, c1); (c0 - 12, c1);
    (c0 - 13, c1); (c0 - 17, c1); (c0 - 18, c1); (c0 - 19, c1);
    (c0 - 11, c1 + 2); (c0 - 12, c1 + 2); (c0 - 13, c1 + 2);
    (c0 - 17, c1 + 2); (c0 - 18, c1 + 2); (c0 - 19, c1 + 2);
    (c0 - 11, c1 + 7); (c0 - 12, c1 + 7); (c0 - 13, c1 + 7);
    (c0 - 17, c1 + 7); (c0 - 18, c1 + 7); (c0 - 19, c1 + 7);
    (c0 - 11, c1 - 5); (c0 - 12, c1 - 5); (c0 - 13, c1 - 5);
    (c0 - 17, c1 - 5); (c0 - 18, c1 - 5); (c0 - 19, c1 - 5);
    (c0 + 6, c1 - 1); (c0 + 7, c1 - 1); (c0 + 8, c1 - 1); (c0 + 9, c1 - 1);
    (c0 + 10, c1 - 1); (c0 + 16, c1 - 1); (c0 + 17, c1 - 1);
    (c0 + 18, c1 - 1); (c0 + 19, c1 - 1); (c0 + 20, c1 - 1);
    (c0 + 6, c1 + 3); (c0 + 7, c1 + 3); (c0 + 8, c1 + 3); (c0 + 9, c1 + 3);
    (c0 + 10, c1 + 3); (c0 + 16, c1 + 3); (c0 + 17, c1 + 3);
    (c0 + 18, c1 + 3); (c0 + 19, c1 + 3); (c0 + 20, c1 + 3);
    (c0 + 11, c1 - 6); (c0 + 11, c1 - 5); (c0 + 11, c1 - 4);
    (c0 + 11, c1 - 3); (c0 + 11, c1 - 2); (c0 + 11, c1 + 4);
    (c0 + 11, c1 + 5); (c0 + 11, c1 + 6); (c0 + 11, c1 + 7);
    (c0 + 11, c1 + 8); (c0 + 15, c1 - 6); (c0 + 15, c1 - 5);
    (c0 + 15, c1 - 4); (c0 + 15, c1 - 3); (c0 + 15, c1 - 2);
    (c0 + 15, c1 + 4); (c0 + 15, c1 + 5); (c0 + 15, c1 + 6);
    (c0 + 15, c1 + 7); (c0 + 15, c1 + 8); (c0 + 9, c1 - 2); (c0 + 9, c1 + 4);
    (c0 + 10, c1 - 3); (c0 + 10, c1 + 5); (c0 + 17, c1 - 2);
    (c0 + 17, c1 + 4); (c0 + 16, c1 - 3); (c0 + 16, c1 + 5) ].

(** [def gosper_glider_gun()] *)
Definition gosper_glider_gun : gset cell :=
  let c0 := GRID_WIDTH `div` 2 in
  let c1 := GRID_HEIGHT `div` 2 in
  list_to_set [
    (c0, c1); (c0, c1 - 1); (c0, c1 - 2); (c0 + 1, c1); (c0 + 1, c1 - 1);
    (c0 + 1, c1 - 2); (c0 + 2, c1 - 3); (c0 + 2, c1 + 1); (c0 + 4, c1 - 3);
    (c0 + 4, c1 + 1); (c0 + 4, c1 - 4); (c0 + 4, c1 + 2); (c0 + 14, c1 - 1);
    (c0 + 14, c1 - 2); (c0 + 15, c1 - 1); (c0 + 15, c1 - 2);
    (c0 - 3, c1 + 1); (c0 - 4, c1 + 1); (c0 - 4, c1); (c0 - 4, c1 + 2);
    (c0 - 5, c1 - 1); (c0 - 5, c1 + 3); (c0 - 6, c1 + 1); (c0 - 7, c1 - 2);
    (c0 - 7, c1 + 4); (c0 - 8, c1 - 2); (c0 - 8, c1 + 4); (c0 - 9, c1 - 1);
    (c0 - 9, c1 + 3); (c0 - 10, c1); (c0 - 10, c1 + 1); (c0 - 10, c1 + 2);
    (c0 - 19, c1); (c0 - 20, c1); (c0 - 19, c1 + 1); (c0 - 20, c1 + 1) ].

(** [def drawGrid(window, alive_set)] *)
Definition drawGrid (window : gmap cell colour) (alive_set : gset cell)
  : gmap cell colour :=
  foldl (λ window x,
           foldl (λ window y,
                    if decide ((x, y) ∈ alive_set)
                    then <[(x, y) := ALIVE_COLOR]> window
                    else <[(x, y) := DEAD_COLOR]> window)
                 window (seqZ 0 GRID_HEIGHT))
        window (seqZ 0 GRID_WIDTH).

(** [window.fill(ALIVE_COLOR)] on the freshly created window, whose size
    is that of the grid. *)
Definition fill (c : colour) : gmap cell colour :=
  gset_to_gmap c (grid GRID_WIDTH GRID_HEIGHT).

(** The choice of the starting configuration at the top of [main].  For
    any other answer [alive_set] stays unbound and the following
    [boundary(alive_set)] raises: [None]. *)
Definition starting_configuration (starting_conf : string)
    (randint : nat → Z) : option (gset cell) :=
  if decide (starting_conf = "1") then Some (random_config randint).1
  else if decide (starting_conf = "2") then Some pulsars
  else if decide (starting_conf = "3") then Some gosper_glider_gun
  else None.

(** [main] up to the [while] loop. *)
Definition main_init (starting_conf : string) (randint : nat → Z)
  : option loop_state :=
  alive_set ← starting_configuration starting_conf randint;
  let boundary_set := boundary GRID_WIDTH GRID_HEIGHT alive_set in
  let window := fill ALIVE_COLOR in
  let window := drawGrid window alive_set in
  Some (LoopState alive_set boundary_set window true true).

(** The [MOUSEBUTTONDOWN] branch: toggle the clicked cell and redraw. *)
Definition click (pos : Z * Z) (st : loop_state) : loop_state :=
  let coord_click := cell_of_pos pos in
  let alive_set :=
    if decide (coord_click ∈ alive_set st)
    then alive_set st ∖ {[ coord_click ]}
    else alive_set st ∪ {[ coord_click ]} in
  LoopState alive_set (boundary_set st) (drawGrid (window st) alive_set)
            (run st) (pause st).

(** [for event in pygame.event.get()]: [QUIT] clears [run] and breaks out
    of the [for], leaving the remaining events unhandled. *)
Fixpoint handle_events (events : list event) (st : loop_state) : loop_state :=
  match events with
  | [] => st
  | QUIT :: _ =>
      LoopState (alive_set st) (boundary_set st) (window st) false (pause st)
  | MOUSEBUTTONDOWN pos :: events => handle_events events (click pos st)
  | KEYDOWN K_SPACE :: events =>
      handle_events events
        (LoopState (alive_set st) (boundary_set st) (window st) (run st)
                   (negb (pause st)))
  | KEYDOWN K_OTHER :: events => handle_events events st
  | OTHER :: events => handle_events events st
  end.

(** One iteration of [while True], given the events it receives. *)
Definition iteration (events : list event) (st : loop_state) : loop_state :=
  let st := handle_events events st in
  if negb (run st) then st
  else if pause st then st
  else
    let alive_set := evolution GRID_WIDTH GRID_HEIGHT
                               (alive_set st) (boundary_set st) in
    let boundary_set := boundary GRID_WIDTH GRID_HEIGHT alive_set in
    LoopState alive_set boundary_set (drawGrid (window st) alive_set)
              (run st) (pause st).

(** The loop over the successive batches of events; it is left when an
    iteration ends with [run] cleared. *)
Fixpoint main_loop (frames : list (list event)) (st : loop_state)
  : loop_state :=
  match frames with
  | [] => st
  | events :: frames =>
      let st := iteration events st in
      if run st then main_loop frames st else st
  end.

End Driver.

(** The notebook's own instance: a 100 x 100 grid, hence
    [CELL_SIZE = 800/100 = 8.0]; dividing an integer pixel coordinate by
    [8.0] is exact, so the floor is the floored quotient by 8. *)
Definition notebook_cell_of_pos (pos : Z * Z) : cell :=
  (pos.1 `div` 8, pos.2 `div` 8).

(** Moving a cell by [d] on the torus, and moving every cell of a set. *)
Definition translate (W H : Z) (d c : cell) : cell :=
  PBC W H (c.1 + d.1) (c.2 + d.2).

Definition translate_set (W H : Z) (d : cell) (A : gset cell) : gset cell :=
  set_map (translate W H d) A.

(** The window shows the alive set: every grid cell is black when alive
    and white when dead. *)
Definition window_shows (W H : Z) (st : loop_state) : Prop :=
  ∀ c, in_grid W H c →
       window st !! c
       = Some (if decide (c ∈ alive_set st) then ALIVE_COLOR else DEAD_COLOR).

(** The events that change nothing in [main]. *)
Definition ignored (e : event) : Prop := e = OTHER ∨ e = KEYDOWN K_OTHER.

(** ** The coordinate mapping *)

Lemma PBC_fst W H x y :
  (PBC W H x y).1 = if (x <? 0) || (x >=? W) then x `mod` W else x.
Proof. reflexivity. Qed.

Lemma PBC_snd W H x y :
  (PBC W H x y).2 = if (y <? 0) || (y >=? H) then y `mod` H else y.
Proof. reflexivity. Qed.

Lemma guarded_mod n x :
  0 < n → (if (x <? 0) || (x >=? n) then x `mod` n else x) = x `mod` n.
Proof.
  intros Hn. destruct (Z.ltb_spec x 0), (Z.geb_spec x n); simpl; try done.
  symmetry. apply Z.mod_small. lia.
Qed.

Lemma PBC_torus W H x y : 0 < W → 0 < H → PBC W H x y = torus W H (x, y).
Proof.
  intros HW HH. unfold PBC, torus. simpl. by rewrite !guarded_mod.
Qed.

Lemma PBC_in_grid W H x y : 0 < W → 0 < H → in_grid W H (PBC W H x y).
Proof.
  intros HW HH. rewrite PBC_torus by done. unfold in_grid, torus. simpl.
  split; by apply Z.mod_pos_bound.
Qed.

(** C3: for all integers [x], [y] and positive dimensions, [PBC] is the
    pair of true mathematical remainders: it equals [(x mod W, y mod H)],
    lies in the grid, each component differs from its input by a multiple
    of the dimension, and [-1] is sent to [W - 1] (resp. [H - 1]). *)
Theorem PBC_true_modulo W H x y :
  0 < W → 0 < H →
  PBC W H x y = (x `mod` W, y `mod` H)
  ∧ in_grid W H (PBC W H x y)
  ∧ (W | (PBC W H x y).1 - x) ∧ (H | (PBC W H x y).2 - y)
  ∧ (PBC W H (-1) y).1 = W - 1 ∧ (PBC W H x (-1)).2 = H - 1.
Proof.
  intros HW HH. split; [by apply PBC_torus|].
  split; [by apply PBC_in_grid|].
  rewrite !PBC_torus by done. unfold torus. simpl.
  assert (Hdiv : ∀ n a, 0 < n → (n | a `mod` n - a)).
  { intros n a Hn. exists (- (a `div` n)).
    pose proof (Z.div_mod a n ltac:(lia)). lia. }
  assert (Hm1 : ∀ n, 0 < n → (-1) `mod` n = n - 1).
  { intros n Hn. symmetry. apply (Z.mod_unique_pos _ _ (-1)); lia. }
  auto.
Qed.

Lemma PBC_true_modulo_witness :
  PBC 100 100 (-1) 205 = (99, 5) ∧ in_grid 100 100 (PBC 100 100 (-1) 205).
Proof.
  destruct (PBC_true_modulo 100 100 (-1) 205) as (He & Hg & _); [lia | lia |].
  split; [exact He | exact Hg].
Defined.

(** ** The neighbourhood *)

Lemma elem_of_contour W H c n :
  n ∈ contour W H c ↔
    n = PBC W H (c.1 - 1) (c.2 + 1) ∨ n = PBC W H c.1 (c.2 + 1)
    ∨ n = PBC W H (c.1 + 1) (c.2 + 1) ∨ n = PBC W H (c.1 + 1) c.2
    ∨ n = PBC W H (c.1 + 1) (c.2 - 1) ∨ n = PBC W H c.1 (c.2 - 1)
    ∨ n = PBC W H (c.1 - 1) (c.2 - 1) ∨ n = PBC W H (c.1 - 1) c.2.
Proof.
  unfold contour, add.
  rewrite !elem_of_union, !elem_of_singleton, elem_of_empty. tauto.
Qed.

Lemma contour_as_list W H c :
  contour W H c =
  list_to_set ((λ d, PBC W H (shift c d).1 (shift c d).2) <$> moore_offsets).
Proof.
  apply set_eq. intros n. rewrite elem_of_contour. simpl.
  rewrite !Z.add_0_r, !elem_of_union, !elem_of_singleton, elem_of_empty.
  tauto.
Qed.

(** Membership by offsets: the neighbours are the images of the shifts by
    [(dx, dy)] in [{-1,0,1}²] other than [(0,0)]. *)
Lemma elem_of_contour_offset W H c n :
  n ∈ contour W H c ↔
    ∃ dx dy, -1 ≤ dx ≤ 1 ∧ -1 ≤ dy ≤ 1 ∧ (dx ≠ 0 ∨ dy ≠ 0)
             ∧ n = PBC W H (c.1 + dx) (c.2 + dy).
Proof.
  rewrite elem_of_contour. split.
  - intros [->|[->|[->|[->|[->|[->|[->| ->]]]]]]];
      [ exists (-1), 1 | exists 0, 1 | exists 1, 1 | exists 1, 0
      | exists 1, (-1) | exists 0, (-1) | exists (-1), (-1) | exists (-1), 0 ];
      rewrite ?Z.add_0_r; (repeat split; try lia); done.
  - intros (dx & dy & Hx & Hy & Hne & ->).
    assert (dx = -1 ∨ dx = 0 ∨ dx = 1) as [->|[->| ->]] by lia;
      assert (dy = -1 ∨ dy = 0 ∨ dy = 1) as [->|[->| ->]] by lia;
      rewrite ?Z.add_0_r; try lia; tauto.
Qed.

Lemma contour_in_grid W H c n :
  0 < W → 0 < H → n ∈ contour W H c → in_grid W H n.
Proof.
  intros HW HH (dx & dy & _ & _ & _ & ->)%elem_of_contour_offset.
  by apply PBC_in_grid.
Qed.

Lemma size_list_to_set_le (l : list cell) :
  (size (list_to_set l : gset cell) ≤ length l)%nat.
Proof.
  induction l as [|x l IH].
  - by rewrite list_to_set_nil, size_empty.
  - rewrite list_to_set_cons, size_union_alt, size_singleton. simpl.
    pose proof (subseteq_size (list_to_set l ∖ {[x]}) (list_to_set l : gset cell)
                  (subseteq_difference_l _ _ _ (reflexivity _))).
    lia.
Qed.

Lemma contour_size_le W H c : (size (contour W H c) ≤ 8)%nat.
Proof.
  rewrite contour_as_list.
  etrans; [apply size_list_to_set_le|]. done.
Qed.

(** Wrapping one step to the right or to the left of an in-range
    coordinate. *)
Lemma mod_succ n x :
  0 ≤ x < n → (x + 1) `mod` n = if decide (x + 1 = n) then 0 else x + 1.
Proof.
  intros Hx. case_decide as Hd.
  - rewrite Hd. apply Z.mod_same. lia.
  - apply Z.mod_small. lia.
Qed.

Lemma mod_pred n x :
  0 ≤ x < n → (x - 1) `mod` n = if decide (x = 0) then n - 1 else x - 1.
Proof.
  intros Hx. case_decide as Hd.
  - subst x. symmetry. apply (Z.mod_unique_pos _ _ (-1)); lia.
  - apply Z.mod_small. lia.
Qed.

Lemma mod_shift n x d : 0 < n → (x + d) `mod` n = (x `mod` n + d) `mod` n.
Proof. intros Hn. by rewrite Zplus_mod_idemp_l. Qed.

(** The three columns (or rows) of a neighbourhood are pairwise distinct
    as soon as the dimension is at least three. *)
Lemma three_distinct n x :
  3 ≤ n →
  (x - 1) `mod` n ≠ x `mod` n ∧ (x + 1) `mod` n ≠ x `mod` n
  ∧ (x - 1) `mod` n ≠ (x + 1) `mod` n.
Proof.
  intros Hn.
  pose proof (Z.mod_pos_bound x n ltac:(lia)) as Hb.
  rewrite (mod_shift n x 1), <- (Zminus_mod_idemp_l x 1 n) by lia.
  rewrite mod_succ, mod_pred by done.
  repeat case_decide; lia.
Qed.

Lemma contour_size_8 W H c : 3 ≤ W → 3 ≤ H → size (contour W H c) = 8%nat.
Proof.
  intros HW HH. rewrite contour_as_list.
  rewrite size_list_to_set; [done|].
  destruct c as [x y]. simpl. rewrite !Z.add_0_r.
  rewrite !PBC_torus by lia. unfold torus. simpl.
  change (x + -1) with (x - 1). change (y + -1) with (y - 1).
  destruct (three_distinct W x HW) as (? & ? & ?).
  destruct (three_distinct H y HH) as (? & ? & ?).
  generalize dependent ((x - 1) `mod` W). generalize dependent ((x + 1) `mod` W).
  generalize dependent (x `mod` W).
  generalize dependent ((y - 1) `mod` H). generalize dependent ((y + 1) `mod` H).
  generalize dependent (y `mod` H). intros.
  repeat (apply NoDup_cons; split;
          [rewrite ?elem_of_cons, elem_of_nil; intros Hin;
           destruct_or!; congruence|]).
  apply NoDup_nil_2.
Qed.

Lemma contour_neighbors W H c :
  0 < W → 0 < H → contour W H c = neighbors W H c.
Proof.
  intros HW HH. rewrite contour_as_list. unfold neighbors. f_equal.
  apply list_fmap_ext. intros _ d _. rewrite PBC_torus by lia.
  by destruct (shift c d).
Qed.

(** C4: for every cell [c], [contour c] is the set of the toroidal
    normalisations of the eight Moore offsets of [c]; when both dimensions
    are at least three these are eight distinct cells. *)
Theorem contour_moore W H c :
  0 < W → 0 < H →
  contour W H c = neighbors W H c
  ∧ contour W H c
    = list_to_set ((λ d, PBC W H (shift c d).1 (shift c d).2) <$> moore_offsets)
  ∧ length moore_offsets = 8%nat
  ∧ (3 ≤ W → 3 ≤ H → size (contour W H c) = 8%nat).
Proof.
  intros HW HH. split; [|split; [apply contour_as_list|split; [done|]]].
  - by apply contour_neighbors.
  - apply contour_size_8.
Qed.

Lemma contour_moore_witness :
  0 < 100 ∧ 0 < 100 ∧ 3 ≤ 100
  ∧ contour 100 100 (0, 99) = neighbors 100 100 (0, 99)
  ∧ size (contour 100 100 (0, 99)) = 8%nat.
Proof.
  split; [lia|]. split; [lia|]. split; [lia|].
  destruct (contour_moore 100 100 (0, 99)) as (Hn & _ & _ & Hs); [lia | lia |].
  split; [exact Hn | apply Hs; lia].
Defined.

(** On a grid one cell wide (or high) an in-grid cell is its own left and
    right (or upper and lower) neighbour. *)
Lemma contour_self W H c :
  0 < W → 0 < H →
  c ∈ contour W H c ↔ in_grid W H c ∧ (W = 1 ∨ H = 1).
Proof.
  intros HW HH. split.
  - intros Hc. pose proof (contour_in_grid _ _ _ _ HW HH Hc) as Hg.
    split; [done|].
    apply elem_of_contour_offset in Hc as (dx & dy & Hx & Hy & Hne & Hc).
    rewrite PBC_torus in Hc by done. destruct c as [x y], Hg as [Hgx Hgy].
    unfold torus in Hc. simpl in *. injection Hc as Hcx Hcy.
    pose proof (mod_succ W x Hgx). pose proof (mod_pred W x Hgx).
    pose proof (mod_succ H y Hgy). pose proof (mod_pred H y Hgy).
    assert (dx = -1 ∨ dx = 0 ∨ dx = 1) as [->|[->| ->]] by lia;
      assert (dy = -1 ∨ dy = 0 ∨ dy = 1) as [->|[->| ->]] by lia;
      change (x + -1) with (x - 1) in *; change (y + -1) with (y - 1) in *;
      repeat case_decide; lia.
  - intros [[Hgx Hgy] Hdim]. destruct c as [x y]. simpl in *.
    apply elem_of_contour_offset. simpl.
    destruct Hdim as [-> | ->].
    + exists 1, 0. repeat split; try lia.
      rewrite PBC_torus by lia. unfold torus. simpl.
      rewrite Z.mod_1_r, Z.add_0_r, Z.mod_small by lia. f_equal. lia.
    + exists 0, 1. repeat split; try lia.
      rewrite PBC_torus by lia. unfold torus. simpl.
      rewrite Z.mod_1_r, Z.add_0_r, Z.mod_small by lia. f_equal. lia.
Qed.

(** C5, as stated, fails on the 1 x 1 grid: there the only cell is its own
    neighbour. *)
Lemma contour_self_neighbour_1x1 :
  ¬ (0 ≤ Z.of_nat (size (contour 1 1 (0, 0))) ≤ 8
     ∧ (∀ n, n ∈ contour 1 1 (0, 0) → in_grid 1 1 n)
     ∧ (0, 0) ∉ contour 1 1 (0, 0)).
Proof.
  intros (_ & _ & Hself). apply Hself.
  apply elem_of_contour. right. right. right. left. reflexivity.
Qed.

(** C5 (amended): for all dimensions at least one, [contour c] has between
    0 and 8 distinct entries, all of them in the grid; it contains [c]
    itself exactly when [c] is in the grid and one of the dimensions is 1,
    hence never when both dimensions are at least two. *)
Theorem contour_bounds W H c :
  1 ≤ W → 1 ≤ H →
  0 ≤ Z.of_nat (size (contour W H c)) ≤ 8
  ∧ (∀ n, n ∈ contour W H c → in_grid W H n)
  ∧ (c ∈ contour W H c ↔ in_grid W H c ∧ (W = 1 ∨ H = 1))
  ∧ (2 ≤ W → 2 ≤ H → c ∉ contour W H c).
Proof.
  intros HW HH. split; [|split; [|split]].
  - pose proof (contour_size_le W H c). lia.
  - intros n. apply contour_in_grid; lia.
  - apply contour_self; lia.
  - intros HW2 HH2 Hc. apply contour_self in Hc; lia.
Qed.

Lemma contour_bounds_witness :
  1 ≤ 2 ∧ 1 ≤ 2 ∧ ((1, 1) ∉ contour 2 2 (1, 1))
  ∧ (0 ≤ Z.of_nat (size (contour 2 2 (1, 1))) ≤ 8).
Proof.
  split; [lia|]. split; [lia|].
  destruct (contour_bounds 2 2 (1, 1)) as (Hs & _ & _ & Hn); [lia | lia |].
  split; [apply Hn; lia | apply Hs].
Defined.

(** ** The loops, as folds over finite sets *)

Section Folds.

Implicit Types (X A : gset cell) (c : cell).

(** Counting loop: [count += 1] for every member of [X] that is in [A]. *)
Lemma count_fold A X :
  set_fold (λ c count, if decide (c ∈ A) then count + 1 else count) 0 X
  = Z.of_nat (size (X ∩ A)).
Proof.
  apply (set_fold_ind_L (λ r X, r = Z.of_nat (size (X ∩ A)))).
  - by rewrite intersection_empty_l_L, size_empty.
  - intros x Y r Hx ->. case_decide as HA.
    + replace (({[x]} ∪ Y) ∩ A) with ({[x]} ∪ Y ∩ A).
      * rewrite (size_union {[x]} (Y ∩ A)), size_singleton; [lia|].
        apply disjoint_singleton_l. rewrite elem_of_intersection. tauto.
      * apply set_eq. intros z.
        rewrite !elem_of_intersection, !elem_of_union, elem_of_intersection,
          !elem_of_singleton.
        split; [|tauto]. intros [->|?]; tauto.
    + f_equal. f_equal. apply set_eq. intros z.
      rewrite !elem_of_intersection, !elem_of_union, !elem_of_singleton.
      split; [tauto|]. intros [[->|?] ?]; tauto.
Qed.

(** Selecting loop: [acc.add(x)] for every member of [X] passing [p]. *)
Lemma elem_of_fold_add (p : cell → bool) (s0 X : gset cell) c :
  c ∈ set_fold (λ x acc, if p x then add acc x else acc) s0 X
  ↔ c ∈ s0 ∨ (c ∈ X ∧ p c = true).
Proof.
  revert c.
  apply (set_fold_ind_L (λ r X, ∀ c, c ∈ r ↔ c ∈ s0 ∨ (c ∈ X ∧ p c = true))).
  - intros c. rewrite elem_of_empty. tauto.
  - intros x Y r Hx IH c. destruct (p x) eqn:Hp; unfold add;
      rewrite ?elem_of_union, ?elem_of_singleton, IH,
        ?elem_of_union, ?elem_of_singleton.
    + split; [|tauto]. intros [[?|?]| ->]; tauto.
    + split; [tauto|]. intros [?|[[->|?] ?]]; [tauto|congruence|tauto].
Qed.

(** Accumulating loop: [acc = acc.union(f(x))] for every member of [X]. *)
Lemma elem_of_fold_union (f : cell → gset cell) (X : gset cell) c :
  c ∈ set_fold (λ x acc, acc ∪ f x) ∅ X ↔ ∃ a, a ∈ X ∧ c ∈ f a.
Proof.
  revert c.
  apply (set_fold_ind_L (λ r X, ∀ c, c ∈ r ↔ ∃ a, a ∈ X ∧ c ∈ f a)).
  - intros c. rewrite elem_of_empty. split; [done|].
    intros (a & Ha & _). by apply elem_of_empty in Ha.
  - intros x Y r Hx IH c. rewrite elem_of_union, IH. split.
    + intros [(a & Ha & Hc)|Hc].
      * exists a. rewrite elem_of_union. tauto.
      * exists x. rewrite elem_of_union, elem_of_singleton. tauto.
    + intros (a & [->%elem_of_singleton|Ha]%elem_of_union & Hc); eauto.
Qed.

End Folds.

(** ** The full grid *)

Lemma elem_of_grid W H c : c ∈ grid W H ↔ in_grid W H c.
Proof.
  unfold grid, in_grid. rewrite elem_of_list_to_set, list_elem_of_bind.
  destruct c as [x y]. simpl. split.
  - intros (x' & (y' & [= -> ->] & Hy)%list_elem_of_fmap & Hx).
    apply elem_of_seqZ in Hx, Hy. lia.
  - intros [Hx Hy]. exists x. rewrite list_elem_of_fmap, !elem_of_seqZ.
    split; [exists y; rewrite elem_of_seqZ|]; (split; [done|lia]) || lia.
Qed.

Lemma grid_empty W H : W ≤ 0 ∨ H ≤ 0 → grid W H = ∅.
Proof.
  intros Hdim. apply set_eq. intros c.
  rewrite elem_of_grid, elem_of_empty. unfold in_grid. lia.
Qed.

(** ** The boundary *)

Lemma elem_of_boundary W H A c :
  c ∈ boundary W H A ↔ (c ∉ A) ∧ ∃ a, a ∈ A ∧ c ∈ contour W H a.
Proof.
  unfold boundary. rewrite elem_of_difference, elem_of_fold_union. tauto.
Qed.

Lemma boundary_in_grid W H A c :
  0 < W → 0 < H → c ∈ boundary W H A → in_grid W H c.
Proof.
  intros HW HH (_ & a & _ & Hc)%elem_of_boundary.
  by apply contour_in_grid in Hc.
Qed.

Lemma boundary_of_empty W H : boundary W H ∅ = ∅.
Proof.
  apply set_eq. intros c. rewrite elem_of_boundary, elem_of_empty.
  split; [|done]. intros (_ & a & Ha & _). by apply elem_of_empty in Ha.
Qed.

(** C2: for positive dimensions, [boundary A] is exactly the set of cells
    that are not in [A] and are a toroidal neighbour (the torus image of
    one of the eight Moore offsets) of a cell of [A]; hence it is disjoint
    from [A], empty for the empty set and empty for the full grid. *)
Theorem boundary_spec W H :
  0 < W → 0 < H →
  (∀ A c, c ∈ boundary W H A ↔ (c ∉ A) ∧ ∃ a, a ∈ A ∧ c ∈ neighbors W H a)
  ∧ (∀ A, boundary W H A ∩ A = ∅)
  ∧ boundary W H ∅ = ∅
  ∧ boundary W H (grid W H) = ∅.
Proof.
  intros HW HH. split; [|split; [|split]].
  - intros A c. rewrite elem_of_boundary. split.
    + intros [Hc (a & Ha & Hn)]. split; [done|]. exists a.
      by rewrite <- contour_neighbors.
    + intros [Hc (a & Ha & Hn)]. split; [done|]. exists a.
      by rewrite contour_neighbors.
  - intros A. apply set_eq. intros c.
    rewrite elem_of_intersection, elem_of_boundary, elem_of_empty. tauto.
  - apply boundary_of_empty.
  - apply set_eq. intros c. rewrite elem_of_empty. split; [|done].
    intros Hc. pose proof (boundary_in_grid _ _ _ _ HW HH Hc) as Hg.
    apply elem_of_boundary in Hc as [Hn _]. by apply Hn, elem_of_grid.
Qed.

Lemma boundary_spec_witness :
  0 < 2 ∧ 0 < 2 ∧ (1, 1) ∈ boundary 2 2 {[ (0, 0) ]}
  ∧ boundary 2 2 {[ (0, 0) ]} ∩ {[ (0, 0) ]} = ∅.
Proof.
  assert (0 < 2) as Hpos by lia.
  destruct (boundary_spec 2 2 Hpos Hpos) as (Hmem & Hdisj & _).
  split; [exact Hpos|]. split; [exact Hpos|]. split; [|apply Hdisj].
  apply Hmem. split.
  - apply (bool_decide_unpack _). vm_compute. exact I.
  - exists (0, 0). split; apply (bool_decide_unpack _); vm_compute; exact I.
Defined.

(** C10: whatever the alive set, normalised or not, every cell of its
    boundary lies in the grid. *)
Theorem boundary_normalised W H A :
  0 < W → 0 < H →
  (∀ c, c ∈ boundary W H A → in_grid W H c) ∧ boundary W H A ⊆ grid W H.
Proof.
  intros HW HH.
  assert (∀ c, c ∈ boundary W H A → in_grid W H c) as Hin
    by (intros c; by apply boundary_in_grid).
  split; [done|]. intros c Hc. by apply elem_of_grid, Hin.
Qed.

Lemma boundary_normalised_witness :
  0 < 5 ∧ 0 < 5
  ∧ boundary 5 5 {[ (-3, 7); (12, 4) ]} ⊆ grid 5 5.
Proof.
  split; [lia|]. split; [lia|].
  apply (boundary_normalised 5 5 {[ (-3, 7); (12, 4) ]}); lia.
Defined.

(** ** The neighbour count *)

Lemma contour_alive_sum_size W H c A :
  contour_alive_sum W H c A = Z.of_nat (size (contour W H c ∩ A)).
Proof. apply count_fold. Qed.

Lemma contour_alive_sum_range W H c A : 0 ≤ contour_alive_sum W H c A ≤ 8.
Proof.
  rewrite contour_alive_sum_size.
  pose proof (subseteq_size (contour W H c ∩ A) (contour W H c)
                (intersection_subseteq_l _ _)).
  pose proof (contour_size_le W H c). lia.
Qed.

(** C9: the count is the cardinality of [contour c ∩ A] and lies in
    [[0, 8]]. *)
Theorem contour_alive_sum_spec W H c A :
  contour_alive_sum W H c A = Z.of_nat (size (contour W H c ∩ A))
  ∧ 0 ≤ contour_alive_sum W H c A ≤ 8.
Proof.
  split; [apply contour_alive_sum_size | apply contour_alive_sum_range].
Qed.

Lemma contour_alive_sum_zero W H c A :
  contour_alive_sum W H c A = 0 ↔ ∀ n, n ∈ contour W H c → n ∉ A.
Proof.
  rewrite contour_alive_sum_size. split.
  - intros Hz n Hn HA.
    assert (size (contour W H c ∩ A) = 0%nat) as Hs%size_empty_inv by lia.
    apply (not_elem_of_empty (C:=gset cell) n), Hs.
    rewrite elem_of_intersection. tauto.
  - intros Hn. replace (contour W H c ∩ A) with (∅ : gset cell).
    + by rewrite size_empty.
    + symmetry. apply set_eq. intros n.
      rewrite elem_of_intersection, elem_of_empty. split; [|done].
      intros [? ?]. by apply (Hn n).
Qed.

(** ** The rule engine *)

Lemma elem_of_evolution W H A B c :
  c ∈ evolution W H A B ↔
    (c ∈ A ∧ 2 ≤ contour_alive_sum W H c A ≤ 3)
    ∨ (c ∈ B ∧ contour_alive_sum W H c A = 3).
Proof.
  unfold evolution. rewrite !elem_of_fold_add, elem_of_empty.
  rewrite andb_true_iff, !Z.leb_le, Z.eqb_eq. tauto.
Qed.

Lemma evolution_members W H A B c :
  c ∈ evolution W H A B → c ∈ A ∨ c ∈ B.
Proof. rewrite elem_of_evolution. tauto. Qed.

(** C8: for arbitrary input sets the next generation is a subset of
    [A ∪ B]; its members are members of [A] or of [B] with their
    coordinates unchanged; and two empty inputs give the empty set. *)
Theorem evolution_subset W H A B :
  evolution W H A B ⊆ A ∪ B
  ∧ (∀ c, c ∈ evolution W H A B → c ∈ A ∨ c ∈ B)
  ∧ evolution W H ∅ ∅ = ∅.
Proof.
  pose proof (evolution_members W H) as Hsub.
  split; [|split].
  - intros c Hc. rewrite elem_of_union. by apply Hsub.
  - apply Hsub.
  - apply set_eq. intros c. rewrite elem_of_empty. split; [|done].
    intros [Hc|Hc]%Hsub; by apply elem_of_empty in Hc.
Qed.

(** C6: the containment invariant is preserved by a simulation tick: from
    an alive set inside the grid, the next alive set and its recomputed
    boundary are inside the grid. *)
Theorem containment_preserved W H A :
  0 < W → 0 < H → A ⊆ grid W H →
  evolution W H A (boundary W H A) ⊆ grid W H
  ∧ boundary W H (evolution W H A (boundary W H A)) ⊆ grid W H
  ∧ (tick W H (A, boundary W H A)).1 ⊆ grid W H
  ∧ (tick W H (A, boundary W H A)).2 ⊆ grid W H.
Proof.
  intros HW HH HA.
  assert (evolution W H A (boundary W H A) ⊆ grid W H) as Hnext.
  { intros c [Hc|Hc]%evolution_members; [by apply HA|].
    by apply elem_of_grid, (boundary_in_grid W H A). }
  assert (∀ X, boundary W H X ⊆ grid W H) as Hbd.
  { intros X c Hc. by apply elem_of_grid, (boundary_in_grid W H X). }
  unfold tick. simpl. auto.
Qed.

Lemma containment_preserved_witness :
  0 < 7 ∧ 0 < 7 ∧ blinker_h ⊆ grid 7 7
  ∧ evolution 7 7 blinker_h (boundary 7 7 blinker_h) ⊆ grid 7 7
  ∧ boundary 7 7 (evolution 7 7 blinker_h (boundary 7 7 blinker_h)) ⊆ grid 7 7.
Proof.
  assert (blinker_h ⊆ grid 7 7) as Hsub by (apply (bool_decide_unpack _); vm_compute; exact I).
  split; [lia|]. split; [lia|]. split; [exact Hsub|].
  destruct (containment_preserved 7 7 blinker_h) as (H1 & H2 & _);
    [lia | lia | exact Hsub |].
  split; [exact H1 | exact H2].
Defined.

(** ** The sparse step against the dense reference *)

(** On the torus the neighbour relation is symmetric. *)
Lemma contour_sym W H c n :
  0 < W → 0 < H → in_grid W H c → n ∈ contour W H c → c ∈ contour W H n.
Proof.
  intros HW HH [Hx Hy] (dx & dy & Hdx & Hdy & Hne & ->)%elem_of_contour_offset.
  apply elem_of_contour_offset. exists (- dx), (- dy).
  repeat split; try lia.
  rewrite !PBC_torus by done. unfold torus. simpl.
  rewrite !Z.add_opp_r, !Zminus_mod_idemp_l.
  replace (c.1 + dx - dx) with c.1 by lia.
  replace (c.2 + dy - dy) with c.2 by lia.
  rewrite !Z.mod_small by done. by destruct c.
Qed.

(** A dead grid cell outside the boundary has no alive neighbour. *)
Lemma far_cell_count_zero W H A c :
  0 < W → 0 < H → in_grid W H c → c ∉ A → c ∉ boundary W H A →
  contour_alive_sum W H c A = 0.
Proof.
  intros HW HH Hg HA Hb. apply contour_alive_sum_zero. intros n Hn HnA.
  apply Hb, elem_of_boundary. split; [done|].
  exists n. split; [done|]. by apply contour_sym.
Qed.

Lemma elem_of_sparse_step W H A c :
  0 < W → 0 < H → A ⊆ grid W H →
  c ∈ evolution W H A (boundary W H A) ↔
    in_grid W H c ∧ life_rule (c ∈ A) (contour_alive_sum W H c A).
Proof.
  intros HW HH HA. rewrite elem_of_evolution. unfold life_rule. split.
  - intros [[Hc Hn]|[Hc Hn]].
    + split; [by apply elem_of_grid, HA|]. left. split; [done|lia].
    + split; [by apply (boundary_in_grid W H A)|]. right.
      apply elem_of_boundary in Hc. tauto.
  - intros [Hg [[Hc Hn]|[Hc Hn]]]; [left; split; [done|lia]|].
    right. split; [|done].
    destruct (decide (c ∈ boundary W H A)) as [|Hb]; [done|].
    rewrite (far_cell_count_zero W H A c) in Hn by done. lia.
Qed.

(** C1: for an alive set inside the grid, the sparse step over the alive
    set and its boundary equals the dense reference step that evaluates
    the rule at every grid cell; a cell is in the output iff it is a grid
    cell that survives or is born; and a dead grid cell outside the
    boundary has neighbour count 0. *)
Theorem sparse_step_is_dense W H A :
  0 < W → 0 < H → A ⊆ grid W H →
  evolution W H A (boundary W H A) = dense_step W H A
  ∧ (∀ c, c ∈ evolution W H A (boundary W H A) ↔
          in_grid W H c
          ∧ ((c ∈ A ∧ (contour_alive_sum W H c A = 2
                       ∨ contour_alive_sum W H c A = 3))
             ∨ ((c ∉ A) ∧ contour_alive_sum W H c A = 3)))
  ∧ (∀ c, in_grid W H c → c ∉ A → c ∉ boundary W H A →
          contour_alive_sum W H c A = 0).
Proof.
  intros HW HH HA. split; [|split].
  - apply set_eq. intros c. unfold dense_step.
    rewrite elem_of_filter, elem_of_grid, elem_of_sparse_step by done.
    unfold alive_neighbors.
    rewrite <- contour_neighbors, <- contour_alive_sum_size by done. tauto.
  - intros c. by apply elem_of_sparse_step.
  - intros c. by apply far_cell_count_zero.
Qed.

Lemma sparse_step_is_dense_witness :
  0 < 7 ∧ 0 < 7 ∧ blinker_h ⊆ grid 7 7
  ∧ evolution 7 7 blinker_h (boundary 7 7 blinker_h) = dense_step 7 7 blinker_h.
Proof.
  assert (blinker_h ⊆ grid 7 7) as Hsub
    by (apply (bool_decide_unpack _); vm_compute; exact I).
  split; [lia|]. split; [lia|]. split; [exact Hsub|].
  apply (sparse_step_is_dense 7 7 blinker_h); [lia | lia | exact Hsub].
Defined.

(** ** Locality: a pattern far from the seam does not see the grid size *)

Lemma PBC_local_x W W' H x y :
  0 ≤ x < W → 0 ≤ x < W' → PBC W H x y = PBC W' H x y.
Proof.
  intros Hx Hx'. unfold PBC.
  destruct (Z.ltb_spec x 0), (Z.geb_spec x W), (Z.geb_spec x W'); simpl; done || lia.
Qed.

Lemma PBC_local_y W H H' x y :
  0 ≤ y < H → 0 ≤ y < H' → PBC W H x y = PBC W H' x y.
Proof.
  intros Hy Hy'. unfold PBC.
  destruct (Z.ltb_spec y 0), (Z.geb_spec y H), (Z.geb_spec y H'); simpl; done || lia.
Qed.

Lemma contour_local_x W W' H c :
  1 ≤ c.1 → c.1 + 1 < W → c.1 + 1 < W' → contour W H c = contour W' H c.
Proof.
  intros ???. unfold contour. by rewrite !(PBC_local_x W W' H) by lia.
Qed.

Lemma contour_local_y W H H' c :
  1 ≤ c.2 → c.2 + 1 < H → c.2 + 1 < H' → contour W H c = contour W H' c.
Proof.
  intros ???. unfold contour. by rewrite !(PBC_local_y W H H') by lia.
Qed.

Lemma contour_near_x W H c n :
  1 ≤ c.1 → c.1 + 1 < W → n ∈ contour W H c → c.1 - 1 ≤ n.1 ≤ c.1 + 1.
Proof.
  intros ?? (dx & dy & ? & ? & _ & ->)%elem_of_contour_offset.
  rewrite PBC_fst.
  destruct (Z.ltb_spec (c.1 + dx) 0), (Z.geb_spec (c.1 + dx) W); simpl; lia.
Qed.

Lemma contour_near_y W H c n :
  1 ≤ c.2 → c.2 + 1 < H → n ∈ contour W H c → c.2 - 1 ≤ n.2 ≤ c.2 + 1.
Proof.
  intros ?? (dx & dy & ? & ? & _ & ->)%elem_of_contour_offset.
  rewrite PBC_snd.
  destruct (Z.ltb_spec (c.2 + dy) 0), (Z.geb_spec (c.2 + dy) H); simpl; lia.
Qed.

(** Two grids on which the neighbourhoods of the alive cells and of their
    neighbours coincide give the same boundary and the same next
    generation. *)
Lemma step_local W H W' H' A :
  (∀ a, a ∈ A → contour W H a = contour W' H' a) →
  (∀ a n, a ∈ A → n ∈ contour W H a → contour W H n = contour W' H' n) →
  boundary W H A = boundary W' H' A
  ∧ evolution W H A (boundary W H A) = evolution W' H' A (boundary W' H' A).
Proof.
  intros Hin Hnear.
  assert (boundary W H A = boundary W' H' A) as Hb.
  { apply set_eq. intros c. rewrite !elem_of_boundary.
    split; (intros [Hc (a & Ha & Hn)]; split; [done|]; exists a; split; [done|]).
    - by rewrite <- Hin.
    - by rewrite Hin. }
  split; [done|]. rewrite <- Hb. apply set_eq. intros c.
  rewrite !elem_of_evolution.
  assert (c ∈ A ∨ c ∈ boundary W H A →
          contour_alive_sum W H c A = contour_alive_sum W' H' c A) as Hcount.
  { rewrite !contour_alive_sum_size.
    intros [Hc|(_ & a & Ha & Hc)%elem_of_boundary].
    - by rewrite Hin.
    - by rewrite (Hnear a c). }
  split; (intros [[Hc Hn]|[Hc Hn]]; [left|right]; split; try done).
  - rewrite <- Hcount; tauto.
  - rewrite <- Hcount; tauto.
  - rewrite Hcount; tauto.
  - rewrite Hcount; tauto.
Qed.

Lemma step_local_x W W' H A :
  (∀ a, a ∈ A → 2 ≤ a.1 ∧ a.1 + 2 < W ∧ a.1 + 2 < W') →
  evolution W H A (boundary W H A) = evolution W' H A (boundary W' H A).
Proof.
  intros HA. apply step_local.
  - intros a Ha%HA. apply contour_local_x; lia.
  - intros a n Ha%HA Hn%contour_near_x; [|lia..].
    apply contour_local_x; lia.
Qed.

Lemma step_local_y W H H' A :
  (∀ a, a ∈ A → 2 ≤ a.2 ∧ a.2 + 2 < H ∧ a.2 + 2 < H') →
  evolution W H A (boundary W H A) = evolution W H' A (boundary W H' A).
Proof.
  intros HA. apply step_local.
  - intros a Ha%HA. apply contour_local_y; lia.
  - intros a n Ha%HA Hn%contour_near_y; [|lia..].
    apply contour_local_y; lia.
Qed.

(** ** The blinker *)

Lemma elem_of_blinker_h a :
  a ∈ blinker_h ↔ a = (4, 5) ∨ a = (5, 5) ∨ a = (6, 5).
Proof.
  unfold blinker_h. rewrite !elem_of_union, !elem_of_singleton. tauto.
Qed.

Lemma elem_of_blinker_v a :
  a ∈ blinker_v ↔ a = (5, 4) ∨ a = (5, 5) ∨ a = (5, 6).
Proof.
  unfold blinker_v. rewrite !elem_of_union, !elem_of_singleton. tauto.
Qed.

(** Both phases on the grids whose seam is within reach of the pattern,
    by evaluation. *)
Lemma blinker_small W H :
  W ∈ [7; 8; 9] → H ∈ [7; 8; 9] →
  evolution W H blinker_h (boundary W H blinker_h) = blinker_v
  ∧ evolution W H blinker_v (boundary W H blinker_v) = blinker_h.
Proof.
  rewrite !elem_of_cons, !elem_of_nil. intros HW HH.
  destruct_or!; try done; subst W H; split; by vm_compute.
Qed.

(** Every larger width (resp. height) behaves like width (resp. height)
    nine on both phases. *)
Lemma blinker_width W H A :
  A = blinker_h ∨ A = blinker_v → 9 ≤ W →
  evolution W H A (boundary W H A) = evolution 9 H A (boundary 9 H A).
Proof.
  intros HA HW. apply step_local_x. intros a Ha.
  destruct HA as [-> | ->];
    [apply elem_of_blinker_h in Ha | apply elem_of_blinker_v in Ha];
    destruct_or!; subst a; simpl; lia.
Qed.

Lemma blinker_height W H A :
  A = blinker_h ∨ A = blinker_v → 9 ≤ H →
  evolution W H A (boundary W H A) = evolution W 9 A (boundary W 9 A).
Proof.
  intros HA HH. apply step_local_y. intros a Ha.
  destruct HA as [-> | ->];
    [apply elem_of_blinker_h in Ha | apply elem_of_blinker_v in Ha];
    destruct_or!; subst a; simpl; lia.
Qed.

(** C7: on every grid at least 7 x 7 the horizontal blinker becomes the
    vertical triplet after one evolution step and is back after a second
    step with the recomputed boundary. *)
Theorem blinker_period_2 W H :
  7 ≤ W → 7 ≤ H →
  evolution W H blinker_h (boundary W H blinker_h) = blinker_v
  ∧ evolution W H blinker_v (boundary W H blinker_v) = blinker_h
  ∧ (tick W H (tick W H (blinker_h, boundary W H blinker_h))).1 = blinker_h.
Proof.
  intros HW HH.
  assert (evolution W H blinker_h (boundary W H blinker_h) = blinker_v
          ∧ evolution W H blinker_v (boundary W H blinker_v) = blinker_h)
    as [Hhv Hvh].
  { assert (W ∈ [7; 8; 9] ∨ 9 ≤ W) as [HW'|HW'].
    { rewrite !elem_of_cons. lia. }
    all: assert (H ∈ [7; 8; 9] ∨ 9 ≤ H) as [HH'|HH']
      by (rewrite !elem_of_cons; lia).
    - by apply blinker_small.
    - rewrite (blinker_height W H blinker_h), (blinker_height W H blinker_v)
        by auto.
      apply blinker_small; [done|]. rewrite !elem_of_cons. auto.
    - rewrite (blinker_width W H blinker_h), (blinker_width W H blinker_v)
        by auto.
      apply blinker_small; [|done]. rewrite !elem_of_cons. auto.
    - rewrite (blinker_width W H blinker_h), (blinker_width W H blinker_v),
        (blinker_height 9 H blinker_h), (blinker_height 9 H blinker_v)
        by auto.
      apply blinker_small; rewrite !elem_of_cons; auto. }
  split; [done|]. split; [done|].
  unfold tick. simpl. by rewrite Hhv, Hvh.
Qed.

Lemma blinker_period_2_witness :
  7 ≤ 100 ∧ 7 ≤ 100
  ∧ evolution 100 100 blinker_h (boundary 100 100 blinker_h) = blinker_v
  ∧ evolution 100 100 blinker_v (boundary 100 100 blinker_v) = blinker_h.
Proof.
  split; [lia|]. split; [lia|].
  destruct (blinker_period_2 100 100) as (Hhv & Hvh & _); [lia | lia |].
  split; [exact Hhv | exact Hvh].
Defined.

(** ** Further properties of the coordinate mapping and the neighbourhood *)

(** [PBC] is a retraction onto the grid: it fixes exactly the grid cells,
    is idempotent, and is periodic in both arguments. *)
Theorem PBC_retraction W H x y :
  0 < W → 0 < H →
  (PBC W H x y = (x, y) ↔ in_grid W H (x, y))
  ∧ PBC W H (PBC W H x y).1 (PBC W H x y).2 = PBC W H x y
  ∧ (∀ j k, PBC W H (x + j * W) (y + k * H) = PBC W H x y).
Proof.
  intros HW HH. split; [|split].
  - split.
    + intros <-. by apply PBC_in_grid.
    + intros [Hx Hy]. simpl in *. rewrite PBC_torus by done.
      unfold torus. simpl. by rewrite !Z.mod_small.
  - rewrite !PBC_torus by done. unfold torus. simpl.
    by rewrite !Z.mod_mod by lia.
  - intros j k. rewrite !PBC_torus by done. unfold torus. simpl.
    by rewrite !Z_mod_plus_full.
Qed.

Lemma PBC_retraction_witness :
  0 < 100 ∧ 0 < 100 ∧ PBC 100 100 (-1 + 3 * 100) (205 + -2 * 100) = PBC 100 100 (-1) 205.
Proof.
  split; [lia|]. split; [lia|].
  apply (PBC_retraction 100 100 (-1) 205); lia.
Defined.

Lemma contour_of_wrapped W H c :
  0 < W → 0 < H → contour W H (PBC W H c.1 c.2) = contour W H c.
Proof.
  intros HW HH. unfold contour, add. rewrite !PBC_torus by done.
  unfold torus. simpl.
  by rewrite ?Zplus_mod_idemp_l, ?Zminus_mod_idemp_l, ?Z.mod_mod by lia.
Qed.

(** A cell off the grid has the neighbours of its wrapped image, and the
    neighbour relation is symmetric up to wrapping: if [n] is a neighbour
    of [c] then the wrapped [c] is a neighbour of [n]. *)
Theorem contour_symmetric W H c n :
  0 < W → 0 < H →
  contour W H (PBC W H c.1 c.2) = contour W H c
  ∧ (n ∈ contour W H c → PBC W H c.1 c.2 ∈ contour W H n)
  ∧ (in_grid W H c → in_grid W H n →
     (n ∈ contour W H c ↔ c ∈ contour W H n)).
Proof.
  intros HW HH. split; [by apply contour_of_wrapped|]. split.
  - intros Hn. rewrite <- contour_of_wrapped in Hn by done.
    apply contour_sym in Hn; [done..|]. by apply PBC_in_grid.
  - intros Hc Hn. split; by apply contour_sym.
Qed.

Lemma contour_symmetric_witness :
  0 < 100 ∧ 0 < 100
  ∧ contour 100 100 (PBC 100 100 (-1) 100) = contour 100 100 (-1, 100).
Proof.
  split; [lia|]. split; [lia|].
  apply (contour_symmetric 100 100 (-1, 100) (0, 0)); lia.
Defined.

(** ** Sizes *)

Lemma size_union_le (X Y : gset cell) : (size (X ∪ Y) ≤ size X + size Y)%nat.
Proof.
  rewrite size_union_alt.
  pose proof (subseteq_size (Y ∖ X) Y (subseteq_difference_l _ _ _ (reflexivity _))).
  lia.
Qed.

Lemma size_fold_contours (W H : Z) (A : gset cell) :
  (size (set_fold (λ c acc, acc ∪ contour W H c) (∅ : gset cell) A)
   ≤ 8 * size A)%nat.
Proof.
  apply (set_fold_ind_L (λ (r : gset cell) (X : gset cell),
                           (size r ≤ 8 * size X)%nat)).
  - by rewrite size_empty.
  - intros x X r Hx IH.
    rewrite (size_union {[x]} X), size_singleton
      by (by apply disjoint_singleton_l).
    pose proof (size_union_le r (contour W H x)).
    pose proof (contour_size_le W H x). lia.
Qed.

(** The boundary has at most eight cells per alive cell, the next
    generation at most as many cells as the two sets scanned, and so the
    population grows at most ninefold in one tick. *)
Theorem population_bounds (W H : Z) (A B : gset cell) :
  (size (boundary W H A) ≤ 8 * size A)%nat
  ∧ (size (evolution W H A B) ≤ size A + size B)%nat
  ∧ (size (evolution W H A (boundary W H A)) ≤ 9 * size A)%nat.
Proof.
  assert (size (boundary W H A) ≤ 8 * size A)%nat as Hb.
  { unfold boundary. etrans; [|apply size_fold_contours].
    apply subseteq_size, subseteq_difference_l. reflexivity. }
  assert (∀ B', size (evolution W H A B') ≤ size A + size B')%nat as He.
  { intros B'. etrans; [|apply size_union_le].
    apply subseteq_size. intros c Hc%evolution_members.
    by apply elem_of_union. }
  split; [done|]. split; [done|].
  specialize (He (boundary W H A)). lia.
Qed.

(** ** Further properties of the neighbour count *)

Lemma contour_alive_sum_mono (W H : Z) (c : cell) (A A' : gset cell) :
  A ⊆ A' → contour_alive_sum W H c A ≤ contour_alive_sum W H c A'.
Proof.
  intros Hsub. rewrite !contour_alive_sum_size.
  apply inj_le, subseteq_size. intros n.
  rewrite !elem_of_intersection. intros [? ?]. split; [done|by apply Hsub].
Qed.

(** Alive cells outside the grid are never counted, and the count is
    monotone in the alive set. *)
Theorem contour_alive_sum_grid (W H : Z) (c : cell) (A A' : gset cell) :
  0 < W → 0 < H →
  contour_alive_sum W H c A = contour_alive_sum W H c (A ∩ grid W H)
  ∧ (A ⊆ A' → contour_alive_sum W H c A ≤ contour_alive_sum W H c A').
Proof.
  intros HW HH. split; [|apply contour_alive_sum_mono].
  rewrite !contour_alive_sum_size.
  f_equal. f_equal. apply set_eq. intros n.
  rewrite !elem_of_intersection, elem_of_grid. split; [|tauto].
  intros [Hn HA]. pose proof (contour_in_grid _ _ _ _ HW HH Hn). tauto.
Qed.

Lemma contour_alive_sum_grid_witness :
  0 < 5 ∧ 0 < 5
  ∧ contour_alive_sum 5 5 (0, 0) {[ (-1, 0); (1, 1) ]}
    = contour_alive_sum 5 5 (0, 0) ({[ (-1, 0); (1, 1) ]} ∩ grid 5 5).
Proof.
  split; [lia|]. split; [lia|].
  apply (contour_alive_sum_grid 5 5 (0, 0) {[ (-1, 0); (1, 1) ]} ∅); lia.
Defined.

(** ** The rule engine with an arbitrary second argument *)

Lemma elem_of_dense_step W H A c :
  0 < W → 0 < H →
  c ∈ dense_step W H A ↔
    in_grid W H c ∧ life_rule (c ∈ A) (contour_alive_sum W H c A).
Proof.
  intros HW HH. unfold dense_step, alive_neighbors.
  rewrite elem_of_filter, elem_of_grid.
  rewrite <- contour_neighbors by done.
  rewrite <- contour_alive_sum_size. tauto.
Qed.

Lemma evolution_sound W H A B :
  0 < W → 0 < H → A ⊆ grid W H → B ⊆ grid W H →
  evolution W H A B ⊆ dense_step W H A.
Proof.
  intros HW HH HA HB c. rewrite elem_of_evolution, elem_of_dense_step by done.
  unfold life_rule. intros [[Hc Hn]|[Hc Hn]].
  - split; [by apply elem_of_grid, HA|]. left. split; [done|lia].
  - split; [by apply elem_of_grid, HB|].
    destruct (decide (c ∈ A)); [left|right]; (split; [done|lia]).
Qed.

Lemma evolution_complete W H A B :
  0 < W → 0 < H → A ⊆ grid W H → B ⊆ grid W H →
  (∀ c, in_grid W H c → c ∉ A → contour_alive_sum W H c A = 3 → c ∈ B) →
  evolution W H A B = dense_step W H A.
Proof.
  intros HW HH HA HB Hbirths. apply set_eq. intros c. split.
  - by apply evolution_sound.
  - rewrite elem_of_evolution, elem_of_dense_step by done. unfold life_rule.
    intros [Hg [[Hc Hn]|[Hc Hn]]]; [left; split; [done|lia]|].
    right. split; [by apply Hbirths|done].
Qed.

(** Whatever set of grid cells is passed as the boundary, [evolution]
    never produces a cell that the rule does not produce; it produces all
    of them exactly when the set passed contains every dead grid cell with
    three alive neighbours. *)
Theorem evolution_any_boundary W H A B :
  0 < W → 0 < H → A ⊆ grid W H → B ⊆ grid W H →
  evolution W H A B ⊆ dense_step W H A
  ∧ (evolution W H A B = dense_step W H A ↔
     ∀ c, in_grid W H c → c ∉ A → contour_alive_sum W H c A = 3 → c ∈ B).
Proof.
  intros HW HH HA HB. split; [by apply evolution_sound|]. split.
  - intros Heq c Hg Hc Hn.
    assert (c ∈ evolution W H A B) as Hin.
    { rewrite Heq, elem_of_dense_step by done. split; [done|]. by right. }
    apply elem_of_evolution in Hin as [[? _]|[? _]]; done.
  - by apply evolution_complete.
Qed.

Lemma evolution_any_boundary_witness :
  0 < 7 ∧ 0 < 7 ∧ blinker_h ⊆ grid 7 7 ∧ (∅ : gset cell) ⊆ grid 7 7
  ∧ evolution 7 7 blinker_h ∅ ⊆ dense_step 7 7 blinker_h.
Proof.
  assert (blinker_h ⊆ grid 7 7) as Hsub
    by (apply (bool_decide_unpack _); vm_compute; exact I).
  assert ((∅ : gset cell) ⊆ grid 7 7) as Hemp
    by (apply (bool_decide_unpack _); vm_compute; exact I).
  split; [lia|]. split; [lia|]. split; [exact Hsub|]. split; [exact Hemp|].
  apply (evolution_any_boundary 7 7 blinker_h ∅); [lia | lia | exact Hsub | exact Hemp].
Defined.

Lemma count_le_others (W H : Z) (A : gset cell) c :
  2 ≤ W → 2 ≤ H → c ∈ A →
  contour_alive_sum W H c A ≤ Z.of_nat (size A) - 1.
Proof.
  intros HW HH Hc. rewrite contour_alive_sum_size.
  assert (contour W H c ∩ A ⊆ A ∖ {[c]}) as Hsub%subseteq_size.
  { intros n [Hn HA]%elem_of_intersection.
    apply elem_of_difference. split; [done|].
    intros ->%elem_of_singleton. apply contour_self in Hn; lia. }
  assert ({[c]} ⊆ A) as Hsing by (by apply singleton_subseteq_l).
  pose proof (size_difference A {[c]} Hsing) as Hdiff.
  pose proof (subseteq_size {[c]} A Hsing) as Hone.
  rewrite size_singleton in Hdiff, Hone. lia.
Qed.

Lemma count_le_size (W H : Z) (A : gset cell) c :
  contour_alive_sum W H c A ≤ Z.of_nat (size A).
Proof.
  rewrite contour_alive_sum_size.
  apply inj_le, subseteq_size, intersection_subseteq_r.
Qed.

(** A population of fewer than three cells is extinct after one step,
    whatever is passed as the boundary (grids at least 2 x 2); in
    particular a single cell dies.  The empty population stays empty on
    every grid. *)
Theorem small_population_dies (W H : Z) (A B : gset cell) :
  evolution W H ∅ B = ∅
  ∧ (2 ≤ W → 2 ≤ H → (size A ≤ 2)%nat → evolution W H A B = ∅).
Proof.
  split.
  - apply set_eq. intros c. rewrite elem_of_evolution, elem_of_empty.
    pose proof (count_le_size W H ∅ c) as Hle. rewrite size_empty in Hle.
    split; [|done]. intros [[Hc _]|[_ Hn]]; [done|lia].
  - intros HW HH Hsize. apply set_eq. intros c.
    rewrite elem_of_evolution, elem_of_empty. split; [|done].
    intros [[Hc Hn]|[_ Hn]].
    + pose proof (count_le_others W H A c HW HH Hc). lia.
    + pose proof (count_le_size W H A c). lia.
Qed.

(** ** Evolving with the boundary of an earlier alive set *)

Lemma count_added (W H : Z) (A A' : gset cell) n :
  contour_alive_sum W H n A'
  ≤ contour_alive_sum W H n A + Z.of_nat (size (A' ∖ A)).
Proof.
  rewrite !contour_alive_sum_size.
  assert (contour W H n ∩ A' ⊆ (contour W H n ∩ A) ∪ (A' ∖ A)) as Hsub.
  { intros x [Hx HA']%elem_of_intersection.
    rewrite elem_of_union, elem_of_intersection, elem_of_difference.
    destruct (decide (x ∈ A)); tauto. }
  apply subseteq_size in Hsub.
  pose proof (size_union_le (contour W H n ∩ A) (A' ∖ A)). lia.
Qed.

Lemma counted_in_boundary W H A n :
  0 < W → 0 < H → in_grid W H n → n ∉ A →
  0 < contour_alive_sum W H n A → n ∈ boundary W H A.
Proof.
  intros HW HH Hg Hn Hpos.
  destruct (decide (n ∈ boundary W H A)) as [|Hb]; [done|].
  rewrite (far_cell_count_zero W H A n) in Hpos by done. lia.
Qed.

(** Adding at most two cells to the alive set without recomputing the
    boundary is harmless: the step with the old boundary is still the dense
    step of the new alive set. *)
Theorem stale_boundary_two_added (W H : Z) (A A' : gset cell) :
  0 < W → 0 < H → A ⊆ A' → A' ⊆ grid W H → (size (A' ∖ A) ≤ 2)%nat →
  evolution W H A' (boundary W H A) = dense_step W H A'.
Proof.
  intros HW HH HAA HA' Hsize. apply evolution_complete; try done.
  - intros c Hc. by apply elem_of_grid, (boundary_in_grid W H A).
  - intros c Hg Hc Hn. apply counted_in_boundary; try done.
    + intros Hin. by apply Hc, HAA.
    + pose proof (count_added W H A A' c). lia.
Qed.

Lemma stale_boundary_two_added_witness :
  0 < 7 ∧ 0 < 7
  ∧ evolution 7 7 blinker_h (boundary 7 7 {[ (5, 5) ]}) = dense_step 7 7 blinker_h.
Proof.
  split; [lia|]. split; [lia|].
  apply (stale_boundary_two_added 7 7 {[ (5, 5) ]} blinker_h); try lia;
    apply (bool_decide_unpack _); vm_compute; exact I.
Defined.

(* Removing one alive cell without recomputing the boundary loses at most
   that cell. *)
Lemma evolution_after_removing (W H : Z) (A : gset cell) c :
  0 < W → 0 < H → A ⊆ grid W H → c ∈ A →
  evolution W H (A ∖ {[c]}) (boundary W H A) = dense_step W H (A ∖ {[c]}) ∖ {[c]}
  ∧ (c ∈ dense_step W H (A ∖ {[c]}) ↔
     contour_alive_sum W H c (A ∖ {[c]}) = 3).
Proof.
  intros HW HH HA Hc.
  assert (in_grid W H c) as Hgc by (by apply elem_of_grid, HA).
  assert (c ∉ A ∖ {[c]}) as Hcn.
  { rewrite elem_of_difference, elem_of_singleton. tauto. }
  split.
  - apply set_eq. intros n.
    rewrite elem_of_difference, elem_of_singleton, elem_of_evolution,
      elem_of_dense_step by done.
    unfold life_rule. split.
    + intros [[Hn Hcount]|[Hn Hcount]].
      * split; [|by intros ->]. split; [by apply elem_of_grid, HA;
          apply elem_of_difference in Hn as [? _]|].
        left. split; [done|lia].
      * assert (n ≠ c) as Hne.
        { intros ->. apply elem_of_boundary in Hn. tauto. }
        split; [|done]. split; [by apply (boundary_in_grid W H A)|].
        destruct (decide (n ∈ A ∖ {[c]})); [left|right]; (split; [done|lia]).
    + intros [[Hg [[Hn Hcount]|[Hn Hcount]]] Hne].
      * left. split; [done|lia].
      * right. split; [|done].
        assert (n ∉ A) as HnA.
        { intros Hin. apply Hn. rewrite elem_of_difference, elem_of_singleton.
          tauto. }
        apply counted_in_boundary; try done.
        pose proof (contour_alive_sum_mono W H n (A ∖ {[c]}) A
                      (subseteq_difference_l _ _ _ (reflexivity _))). lia.
  - rewrite elem_of_dense_step by done. unfold life_rule. tauto.
Qed.

Lemma small_population_dies_witness :
  2 ≤ 100 ∧ (size ({[ (5%Z, 5%Z) ]} : gset cell) ≤ 2)%nat
  ∧ evolution 100 100 {[ (5, 5) ]} (boundary 100 100 {[ (5, 5) ]}) = ∅.
Proof.
  assert (size ({[ (5%Z, 5%Z) ]} : gset cell) ≤ 2)%nat as Hsize
    by (rewrite size_singleton; lia).
  split; [lia|]. split; [exact Hsize|].
  apply (small_population_dies 100 100 {[ (5, 5) ]}); [lia | lia | exact Hsize].
Defined.

(** ** Alive sets without a boundary *)

Lemma boundary_of_grid W H : 0 < W → 0 < H → boundary W H (grid W H) = ∅.
Proof.
  intros HW HH. apply set_eq. intros c. rewrite elem_of_empty. split; [|done].
  intros Hc. pose proof (boundary_in_grid _ _ _ _ HW HH Hc) as Hg.
  apply elem_of_boundary in Hc as [Hn _]. by apply Hn, elem_of_grid.
Qed.

Lemma PBC_on_grid W H x y : in_grid W H (x, y) → PBC W H x y = (x, y).
Proof.
  intros [Hx Hy]. simpl in *. unfold PBC.
  destruct (Z.ltb_spec x 0), (Z.geb_spec x W); try lia.
  destruct (Z.ltb_spec y 0), (Z.geb_spec y H); try lia. done.
Qed.

Section Closed.

Variables W H : Z.
Variable A : gset cell.
Hypothesis HW : 0 < W.
Hypothesis HH : 0 < H.
Hypothesis HA : A ⊆ grid W H.
Hypothesis Hclosed : boundary W H A = ∅.

Lemma closed_neighbour c n : c ∈ A → n ∈ contour W H c → n ∈ A.
Proof using Hclosed.
  intros Hc Hn. destruct (decide (n ∈ A)) as [|Hout]; [done|].
  assert (n ∈ boundary W H A) as Hb by (apply elem_of_boundary; eauto).
  rewrite Hclosed in Hb. by apply elem_of_empty in Hb.
Qed.

Lemma closed_walk_x x y (k : nat) :
  (x, y) ∈ A → PBC W H (x + Z.of_nat k) y ∈ A.
Proof using HW HH HA Hclosed.
  intros Hc. induction k as [|k IH].
  - rewrite Z.add_0_r.
    by rewrite PBC_on_grid by (by apply elem_of_grid, HA).
  - apply (closed_neighbour _ _ IH).
    apply elem_of_contour_offset. exists 1, 0. repeat split; try lia.
    rewrite !PBC_torus by done. unfold torus. simpl.
    rewrite Z.add_0_r, Zplus_mod_idemp_l, Z.mod_mod by lia.
    do 2 f_equal. lia.
Qed.

Lemma closed_walk_y x y (k : nat) :
  (x, y) ∈ A → PBC W H x (y + Z.of_nat k) ∈ A.
Proof using HW HH HA Hclosed.
  intros Hc. induction k as [|k IH].
  - rewrite Z.add_0_r.
    by rewrite PBC_on_grid by (by apply elem_of_grid, HA).
  - apply (closed_neighbour _ _ IH).
    apply elem_of_contour_offset. exists 0, 1. repeat split; try lia.
    rewrite !PBC_torus by done. unfold torus. simpl.
    rewrite Z.add_0_r, Zplus_mod_idemp_l, Z.mod_mod by lia.
    do 2 f_equal. lia.
Qed.

Lemma closed_all a c : a ∈ A → in_grid W H c → c ∈ A.
Proof using HW HH HA Hclosed.
  destruct a as [ax ay], c as [x y]. intros Ha [Hx Hy]. simpl in *.
  pose proof (closed_walk_x ax ay (Z.to_nat ((x - ax) `mod` W)) Ha) as Hstep.
  pose proof (Z.mod_pos_bound (x - ax) W HW).
  pose proof (Z.mod_pos_bound (y - ay) H HH).
  rewrite PBC_torus in Hstep by done. unfold torus in Hstep. simpl in Hstep.
  rewrite Z2Nat.id, Zplus_mod_idemp_r in Hstep by lia.
  replace (ax + (x - ax)) with x in Hstep by lia.
  rewrite (Z.mod_small x) in Hstep by done.
  assert (in_grid W H (ax, ay)) as [_ Hay] by (by apply elem_of_grid, HA).
  simpl in Hay. rewrite (Z.mod_small ay) in Hstep by done.
  pose proof (closed_walk_y x ay (Z.to_nat ((y - ay) `mod` H)) Hstep) as Hstep'.
  rewrite PBC_torus in Hstep' by done. unfold torus in Hstep'. simpl in Hstep'.
  rewrite Z2Nat.id, Zplus_mod_idemp_r in Hstep' by lia.
  replace (ay + (y - ay)) with y in Hstep' by lia.
  by rewrite !Z.mod_small in Hstep' by done.
Qed.

End Closed.

(** On the torus every non-empty proper part of the grid has a dead
    neighbour: for an alive set inside the grid, the boundary is empty
    only for the empty set and for the full grid. *)
Theorem boundary_empty_iff (W H : Z) (A : gset cell) :
  0 < W → 0 < H → A ⊆ grid W H →
  boundary W H A = ∅ ↔ A = ∅ ∨ A = grid W H.
Proof.
  intros HW HH HA. split.
  - intros Hclosed. destruct (decide (A = ∅)) as [|Hne]; [by left|right].
    apply set_choose_L in Hne as [a Ha].
    apply set_eq. intros c. split; [apply HA|].
    intros Hc%elem_of_grid. by apply (closed_all W H A HW HH HA Hclosed a).
  - intros [-> | ->]; [apply boundary_of_empty | by apply boundary_of_grid].
Qed.

Lemma boundary_empty_iff_witness :
  0 < 3 ∧ 0 < 3 ∧ grid 3 3 ⊆ grid 3 3 ∧ boundary 3 3 (grid 3 3) = ∅.
Proof.
  assert (grid 3 3 ⊆ grid 3 3) as Hsub by reflexivity.
  split; [lia|]. split; [lia|]. split; [exact Hsub|].
  apply (boundary_empty_iff 3 3 (grid 3 3)); [lia | lia | exact Hsub |].
  right. reflexivity.
Defined.

(** ** The random configuration *)

Lemma seqZ_to_nat m n : seqZ m n = seqZ m (Z.of_nat (Z.to_nat n)).
Proof. unfold seqZ. by rewrite Nat2Z.id. Qed.

(** One row of [random_config]: the inner loop over [x]. *)
Lemma random_row (randint : nat → Z) (y : Z) (S0 : gset cell) (n k : nat) :
  let r := foldl (λ '(alive_set, calls) x,
                    if randint calls =? 1
                    then (add alive_set (x, y), S calls)
                    else (alive_set, S calls))
                 (S0, n) (seqZ 0 (Z.of_nat k)) in
  r.2 = (n + k)%nat
  ∧ ∀ c, c ∈ r.1 ↔
         c ∈ S0 ∨ ∃ i : nat, (i < k)%nat ∧ c = (Z.of_nat i, y)
                             ∧ randint (n + i)%nat = 1.
Proof.
  induction k as [|k IH]; simpl.
  - split; [lia|]. intros c. split; [by left|].
    intros [?|(i & ? & _)]; [done|lia].
  - rewrite seqZ_S, foldl_snoc. simpl in IH.
    destruct (foldl _ _ (seqZ 0 (Z.of_nat k))) as [S1 n1].
    destruct IH as [Hn IH]. simpl in Hn. subst n1.
    destruct (Z.eqb_spec (randint (n + k)%nat) 1) as [Hr|Hr]; simpl.
    + split; [lia|]. intros c. unfold add.
      rewrite elem_of_union, elem_of_singleton, IH. simpl. split.
      * intros [[?|(i & ? & ? & ?)]| ->]; [by left|right..].
        -- exists i. split; [lia|done].
        -- exists k. split; [lia|]. split; [f_equal; lia|done].
      * intros [?|(i & Hi & -> & Hri)]; [by left; left|].
        destruct (decide (i = k)) as [->|]; [right; f_equal; lia|].
        left. right. exists i. split; [lia|done].
    + split; [lia|]. intros c. rewrite IH. simpl. split.
      * intros [?|(i & ? & ? & ?)]; [by left|right].
        exists i. split; [lia|done].
      * intros [?|(i & Hi & -> & Hri)]; [by left|].
        destruct (decide (i = k)) as [->|]; [done|].
        right. exists i. split; [lia|done].
Qed.

(** The rows of [random_config]: the outer loop over [y]. *)
Lemma random_rows (W : Z) (randint : nat → Z) (j : nat) :
  let r := foldl (λ '(alive_set, calls) y,
                    foldl (λ '(alive_set, calls) x,
                             if randint calls =? 1
                             then (add alive_set (x, y), S calls)
                             else (alive_set, S calls))
                          (alive_set, calls) (seqZ 0 W))
                 (∅, 0%nat) (seqZ 0 (Z.of_nat j)) in
  r.2 = (j * Z.to_nat W)%nat
  ∧ ∀ c, c ∈ r.1 ↔
         ∃ i l : nat, (i < Z.to_nat W)%nat ∧ (l < j)%nat
                      ∧ c = (Z.of_nat i, Z.of_nat l)
                      ∧ randint (l * Z.to_nat W + i)%nat = 1.
Proof.
  induction j as [|j IH]; simpl.
  - split; [done|]. intros c. rewrite elem_of_empty. split; [done|].
    intros (i & l & _ & ? & _). lia.
  - rewrite seqZ_S, foldl_snoc. simpl in IH.
    destruct (foldl _ _ (seqZ 0 (Z.of_nat j))) as [S1 n1].
    destruct IH as [Hn IH]. simpl in Hn. subst n1.
    rewrite (seqZ_to_nat 0 W).
    destruct (random_row randint (0 + Z.of_nat j) S1 (j * Z.to_nat W)
                (Z.to_nat W)) as [Hcalls Hmem].
    simpl in Hcalls, Hmem. split; [simpl; lia|].
    intros c. rewrite Hmem, IH. split.
    + intros [(i & l & ? & ? & ? & ?)|(i & ? & ? & ?)].
      * exists i, l. split; [done|]. split; [lia|done].
      * exists i, j. split; [done|]. split; [lia|]. split; [|done].
        subst c. f_equal.
    + intros (i & l & Hi & Hl & -> & Hr).
      destruct (decide (l = j)) as [->|].
      * right. exists i. split; [done|]. split; [f_equal|done].
      * left. exists i, l. split; [done|]. split; [lia|done].
Qed.

(** Whatever the random generator returns, [random_config] calls it once
    per grid cell, row by row, makes cell [(x, y)] alive exactly when call
    number [y * W + x] returns 1, and so yields an alive set inside the
    grid. *)
Theorem random_config_spec (W H : Z) (randint : nat → Z) :
  (random_config W H randint).2 = (Z.to_nat H * Z.to_nat W)%nat
  ∧ (∀ x y, (x, y) ∈ (random_config W H randint).1 ↔
            in_grid W H (x, y) ∧ randint (Z.to_nat (y * W + x)) = 1)
  ∧ (random_config W H randint).1 ⊆ grid W H.
Proof.
  unfold random_config. rewrite (seqZ_to_nat 0 H).
  destruct (random_rows W randint (Z.to_nat H)) as [Hcalls Hmem].
  simpl in Hcalls, Hmem.
  assert (∀ x y,
    (x, y) ∈ (foldl (λ '(alive_set, calls) y,
                      foldl (λ '(alive_set, calls) x,
                               if randint calls =? 1
                               then (add alive_set (x, y), S calls)
                               else (alive_set, S calls))
                            (alive_set, calls) (seqZ 0 W))
                    (∅, 0%nat) (seqZ 0 (Z.of_nat (Z.to_nat H)))).1
    ↔ in_grid W H (x, y) ∧ randint (Z.to_nat (y * W + x)) = 1) as Hchar.
  { intros x y. rewrite Hmem. unfold in_grid. simpl. split.
    - intros (i & l & Hi & Hl & [= -> ->] & Hr).
      split; [lia|]. by replace (Z.to_nat (Z.of_nat l * W + Z.of_nat i))
        with (l * Z.to_nat W + i)%nat by nia.
    - intros [[Hx Hy] Hr]. exists (Z.to_nat x), (Z.to_nat y).
      split; [lia|]. split; [lia|]. split; [f_equal; lia|].
      by replace (Z.to_nat y * Z.to_nat W + Z.to_nat x)%nat
        with (Z.to_nat (y * W + x)) by nia. }
  split; [done|]. split; [done|].
  intros [x y] Hc. apply elem_of_grid. by apply Hchar in Hc as [? _].
Qed.

(** ** The preset patterns *)

Lemma half_split (n : Z) :
  ∃ r, n = 2 * (n `div` 2) + r ∧ 0 ≤ r < 2.
Proof.
  exists (n `mod` 2). split; [apply Z.div_mod; lia|].
  apply Z.mod_pos_bound. lia.
Qed.

Ltac in_literal :=
  apply elem_of_list_to_set;
  repeat first [ apply list_elem_of_here | apply list_elem_of_further ].

(** [pulsars] lies inside the grid exactly when the grid is at least 42
    wide and 17 high; on a smaller grid some of its cells are off the grid
    (they are not wrapped). *)
Theorem pulsars_in_grid (W H : Z) :
  pulsars W H ⊆ grid W H ↔ 42 ≤ W ∧ 17 ≤ H.
Proof.
  destruct (half_split W) as (rw & HWeq & Hrw).
  destruct (half_split H) as (rh & HHeq & Hrh).
  split.
  - intros Hsub.
    assert (in_grid W H (W `div` 2 - 21, H `div` 2 - 1)) as [Hx1 _]
      by (apply elem_of_grid, Hsub; in_literal).
    assert (in_grid W H (W `div` 2 + 11, H `div` 2 - 6)) as [_ Hy1]
      by (apply elem_of_grid, Hsub; in_literal).
    assert (in_grid W H (W `div` 2 + 11, H `div` 2 + 8)) as [_ Hy2]
      by (apply elem_of_grid, Hsub; in_literal).
    simpl in *. lia.
  - intros [HW HH] c Hc. apply elem_of_grid.
    apply elem_of_list_to_set in Hc. revert c Hc. apply Forall_forall.
    unfold in_grid. generalize dependent (W `div` 2).
    generalize dependent (H `div` 2). intros c1 ? c0 ?.
    repeat (apply Forall_cons; split; [simpl; lia|]). apply Forall_nil_2.
Qed.

(** [gosper_glider_gun] lies inside the grid exactly when the grid is at
    least 40 wide and 9 high. *)
Theorem gosper_glider_gun_in_grid (W H : Z) :
  gosper_glider_gun W H ⊆ grid W H ↔ 40 ≤ W ∧ 9 ≤ H.
Proof.
  destruct (half_split W) as (rw & HWeq & Hrw).
  destruct (half_split H) as (rh & HHeq & Hrh).
  split.
  - intros Hsub.
    assert (in_grid W H (W `div` 2 - 20, H `div` 2)) as [Hx1 _]
      by (apply elem_of_grid, Hsub; in_literal).
    assert (in_grid W H (W `div` 2 + 4, H `div` 2 - 4)) as [_ Hy1]
      by (apply elem_of_grid, Hsub; in_literal).
    assert (in_grid W H (W `div` 2 - 7, H `div` 2 + 4)) as [_ Hy2]
      by (apply elem_of_grid, Hsub; in_literal).
    simpl in *. lia.
  - intros [HW HH] c Hc. apply elem_of_grid.
    apply elem_of_list_to_set in Hc. revert c Hc. apply Forall_forall.
    unfold in_grid. generalize dependent (W `div` 2).
    generalize dependent (H `div` 2). intros c1 ? c0 ?.
    repeat (apply Forall_cons; split; [simpl; lia|]). apply Forall_nil_2.
Qed.

(** ** Rendering *)

(** The colour [drawGrid] gives to a cell. *)
Lemma drawGrid_column (A : gset cell) (x : Z) (w : gmap cell colour)
    (k : nat) (c : cell) :
  foldl (λ window y,
           if decide ((x, y) ∈ A)
           then <[(x, y) := ALIVE_COLOR]> window
           else <[(x, y) := DEAD_COLOR]> window)
        w (seqZ 0 (Z.of_nat k)) !! c
  = if decide (c.1 = x ∧ 0 ≤ c.2 < Z.of_nat k)
    then Some (if decide (c ∈ A) then ALIVE_COLOR else DEAD_COLOR)
    else w !! c.
Proof.
  induction k as [|k IH].
  - simpl. case_decide; [lia|done].
  - rewrite seqZ_S, foldl_snoc. cbv beta. rewrite Z.add_0_l.
    destruct (decide (c = (x, Z.of_nat k))) as [->|Hne].
    + clear IH.
      destruct (decide (_ ∧ 0 ≤ _ < Z.of_nat (S k))) as [_|Hn];
        [|exfalso; apply Hn; cbn [fst snd]; lia].
      case_decide; by rewrite lookup_insert_eq.
    + assert (foldl (λ window y,
           if decide ((x, y) ∈ A)
           then <[(x, y) := ALIVE_COLOR]> window
           else <[(x, y) := DEAD_COLOR]> window)
        w (seqZ 0 (Z.of_nat k)) !! c
        = if decide (c.1 = x ∧ 0 ≤ c.2 < Z.of_nat (S k))
          then Some (if decide (c ∈ A) then ALIVE_COLOR else DEAD_COLOR)
          else w !! c) as <-.
      { rewrite IH. clear IH. destruct c as [cx cy]. cbn [fst snd] in *.
        repeat case_decide; try done; exfalso;
          first [lia | apply Hne; f_equal; lia]. }
      clear IH.
      destruct (decide ((x, Z.of_nat k) ∈ A)); by rewrite lookup_insert_ne.
Qed.

Lemma drawGrid_column_Z (H : Z) (A : gset cell) (x : Z)
    (w : gmap cell colour) (c : cell) :
  foldl (λ window y,
           if decide ((x, y) ∈ A)
           then <[(x, y) := ALIVE_COLOR]> window
           else <[(x, y) := DEAD_COLOR]> window)
        w (seqZ 0 H) !! c
  = if decide (c.1 = x ∧ 0 ≤ c.2 < H)
    then Some (if decide (c ∈ A) then ALIVE_COLOR else DEAD_COLOR)
    else w !! c.
Proof.
  rewrite (seqZ_to_nat 0 H), drawGrid_column.
  repeat case_decide; try done; lia.
Qed.

Lemma drawGrid_columns (H : Z) (A : gset cell) (w : gmap cell colour)
    (j : nat) (c : cell) :
  foldl (λ window x,
           foldl (λ window y,
                    if decide ((x, y) ∈ A)
                    then <[(x, y) := ALIVE_COLOR]> window
                    else <[(x, y) := DEAD_COLOR]> window)
                 window (seqZ 0 H))
        w (seqZ 0 (Z.of_nat j)) !! c
  = if decide (in_grid (Z.of_nat j) H c)
    then Some (if decide (c ∈ A) then ALIVE_COLOR else DEAD_COLOR)
    else w !! c.
Proof.
  unfold in_grid. induction j as [|j IH].
  - simpl. case_decide; [lia|done].
  - rewrite seqZ_S, foldl_snoc, drawGrid_column_Z, IH.
    rewrite Z.add_0_l. repeat case_decide; try done; lia.
Qed.

Lemma lookup_drawGrid (W H : Z) (w : gmap cell colour) (A : gset cell) c :
  drawGrid W H w A !! c
  = if decide (in_grid W H c)
    then Some (if decide (c ∈ A) then ALIVE_COLOR else DEAD_COLOR)
    else w !! c.
Proof.
  unfold drawGrid. rewrite (seqZ_to_nat 0 W), drawGrid_columns.
  unfold in_grid. repeat case_decide; try done; lia.
Qed.

(** [drawGrid] repaints every grid cell, black when it is alive and white
    otherwise, and touches nothing else; so the picture on the grid does
    not depend on what was drawn before, and alive cells off the grid are
    not shown. *)
Theorem drawGrid_spec (W H : Z) (w w' : gmap cell colour) (A A' : gset cell) :
  (∀ c, in_grid W H c →
        drawGrid W H w A !! c
        = Some (if decide (c ∈ A) then ALIVE_COLOR else DEAD_COLOR))
  ∧ (∀ c, ¬ in_grid W H c → drawGrid W H w A !! c = w !! c)
  ∧ drawGrid W H (drawGrid W H w A') A = drawGrid W H w A
  ∧ drawGrid W H w (A ∩ grid W H) = drawGrid W H w A.
Proof.
  split; [|split; [|split]].
  - intros c Hc. by rewrite lookup_drawGrid, decide_True.
  - intros c Hc. by rewrite lookup_drawGrid, decide_False.
  - apply map_eq. intros c. rewrite !lookup_drawGrid. by case_decide.
  - apply map_eq. intros c. rewrite !lookup_drawGrid.
    case_decide as Hg; [|done]. f_equal.
    destruct (decide (c ∈ A)) as [Hc|Hc].
    + rewrite decide_True; [done|].
      apply elem_of_intersection. split; [done|by apply elem_of_grid].
    + rewrite decide_False; [done|].
      rewrite elem_of_intersection. tauto.
Qed.

(** ** The main loop *)

Section MainLoop.

Variables W H : Z.
Variable cell_of_pos : Z * Z → cell.

Lemma shows_drawn w A b r p :
  window_shows W H (LoopState A b (drawGrid W H w A) r p).
Proof. intros c Hc. simpl. by rewrite lookup_drawGrid, decide_True. Qed.

Lemma shows_handle_events events st :
  window_shows W H st →
  window_shows W H (handle_events W H cell_of_pos events st).
Proof.
  revert st. induction events as [|[|pos|[]|] events IH]; intros st Hst;
    simpl; try done; try (by apply IH).
  apply IH, shows_drawn.
Qed.

Lemma shows_iteration events st :
  window_shows W H st → window_shows W H (iteration W H cell_of_pos events st).
Proof.
  intros Hst%(shows_handle_events events). unfold iteration.
  destruct (negb _); [done|]. destruct (pause _); [done|]. apply shows_drawn.
Qed.

Lemma shows_main_loop frames st :
  window_shows W H st → window_shows W H (main_loop W H cell_of_pos frames st).
Proof.
  revert st. induction frames as [|events frames IH]; intros st Hst; [done|].
  simpl. apply (shows_iteration events) in Hst.
  destruct (run _); [by apply IH|done].
Qed.

Lemma main_init_Some conf randint st0 :
  main_init W H conf randint = Some st0 →
  ∃ A, starting_configuration W H conf randint = Some A
       ∧ st0 = LoopState A (boundary W H A)
                 (drawGrid W H (fill W H ALIVE_COLOR) A) true true.
Proof.
  unfold main_init. destruct (starting_configuration _ _ _ _) as [A|]; [|done].
  simpl. intros [= <-]. by exists A.
Qed.

(** Events that [main] ignores leave the state as it is. *)
Lemma handle_ignored events st :
  Forall ignored events → handle_events W H cell_of_pos events st = st.
Proof.
  induction 1 as [|e events [-> | ->] _ IH]; simpl; done.
Qed.

(** [QUIT] ends the handling of a batch of events. *)
Lemma handle_quit events events' st :
  handle_events W H cell_of_pos (events ++ QUIT :: events') st
  = handle_events W H cell_of_pos (events ++ [QUIT]) st
  ∧ run (handle_events W H cell_of_pos (events ++ QUIT :: events') st) = false.
Proof.
  revert st. induction events as [|[|pos|[]|] events IH]; intros st; simpl;
    try done; apply IH.
Qed.

End MainLoop.

(** An answer other than 1, 2 or 3 makes [main] fail before the loop.
    Otherwise the loop is entered running and paused, with the chosen
    configuration, its boundary, and a window showing it. *)
Theorem main_init_spec (W H : Z) (conf : string) (randint : nat → Z) :
  (main_init W H conf randint = None
   ↔ conf ≠ "1" ∧ conf ≠ "2" ∧ conf ≠ "3")
  ∧ ∀ st0, main_init W H conf randint = Some st0 →
      run st0 = true ∧ pause st0 = true
      ∧ boundary_set st0 = boundary W H (alive_set st0)
      ∧ window_shows W H st0
      ∧ (conf = "1" → alive_set st0 = (random_config W H randint).1)
      ∧ (conf = "2" → alive_set st0 = pulsars W H)
      ∧ (conf = "3" → alive_set st0 = gosper_glider_gun W H).
Proof.
  split.
  - unfold main_init, starting_configuration.
    repeat case_decide; simpl; split; try done; try tauto.
  - intros st0 (A & HA & ->)%main_init_Some. simpl.
    split; [done|]. split; [done|]. split; [done|].
    split; [apply shows_drawn|].
    unfold starting_configuration in HA.
    repeat case_decide; simplify_eq; done.
Qed.

Lemma main_init_spec_witness :
  ∃ st0, main_init 100 100 "3" (λ _, 0) = Some st0
         ∧ alive_set st0 = gosper_glider_gun 100 100.
Proof.
  eexists. split; [reflexivity|].
  apply (proj2 (main_init_spec 100 100 "3" (λ _, 0)) _ eq_refl).
  reflexivity.
Defined.

(** From the start of [main] on, whatever events arrive, the window shows
    the current alive set. *)
Theorem display_invariant (W H : Z) (cell_of_pos : Z * Z → cell)
    (conf : string) (randint : nat → Z) (frames : list (list event)) st0 :
  main_init W H conf randint = Some st0 →
  window_shows W H (main_loop W H cell_of_pos frames st0).
Proof.
  intros (A & _ & ->)%main_init_Some. apply shows_main_loop, shows_drawn.
Qed.

Lemma display_invariant_witness :
  ∃ st0, main_init 100 100 "3" (λ _, 0) = Some st0
    ∧ window_shows 100 100
        (main_loop 100 100 notebook_cell_of_pos
           [[MOUSEBUTTONDOWN (36, 44); KEYDOWN K_SPACE]; [OTHER]] st0).
Proof.
  eexists. split; [reflexivity|].
  apply (display_invariant 100 100 notebook_cell_of_pos "3" (λ _, 0)).
  reflexivity.
Defined.

Section Frames.

Variables W H : Z.
Variable cell_of_pos : Z * Z → cell.

Lemma handle_no_space events st :
  Forall (λ e, e ≠ KEYDOWN K_SPACE) events →
  pause (handle_events W H cell_of_pos events st) = pause st
  ∧ boundary_set (handle_events W H cell_of_pos events st) = boundary_set st.
Proof.
  intros Hns. revert st.
  induction Hns as [|[|pos|[]|] events He _ IH]; intros st; simpl;
    try done; try apply IH.
  destruct (IH (click W H cell_of_pos pos st)) as [-> ->]. done.
Qed.

Lemma handle_no_space_no_click events st :
  Forall (λ e, e ≠ KEYDOWN K_SPACE) events →
  Forall (λ e, ∀ pos, e ≠ MOUSEBUTTONDOWN pos) events →
  alive_set (handle_events W H cell_of_pos events st) = alive_set st
  ∧ window (handle_events W H cell_of_pos events st) = window st.
Proof.
  intros Hns Hnc. revert st.
  induction Hns as [|[|pos|[]|] events He _ IH]; intros st; simpl;
    try done; apply Forall_cons in Hnc as [Hhd Hnc]; try by apply IH.
  by destruct (Hhd pos).
Qed.

(** A paused loop stays paused and never evolves as long as the space bar
    is not pressed: the boundary set is untouched, and without mouse
    clicks the alive set and the window are untouched too. *)
Theorem paused_until_space frames st :
  pause st = true →
  Forall (Forall (λ e, e ≠ KEYDOWN K_SPACE)) frames →
  pause (main_loop W H cell_of_pos frames st) = true
  ∧ boundary_set (main_loop W H cell_of_pos frames st) = boundary_set st
  ∧ (Forall (Forall (λ e, ∀ pos, e ≠ MOUSEBUTTONDOWN pos)) frames →
     alive_set (main_loop W H cell_of_pos frames st) = alive_set st
     ∧ window (main_loop W H cell_of_pos frames st) = window st).
Proof.
  intros Hp Hns. revert st Hp.
  induction Hns as [|events frames He _ IH]; intros st Hp; [done|].
  simpl.
  destruct (handle_no_space events st He) as [Hpause Hbd].
  assert (iteration W H cell_of_pos events st
          = handle_events W H cell_of_pos events st) as Hit.
  { unfold iteration. destruct (negb _); [done|]. by rewrite Hpause, Hp. }
  rewrite Hit. rewrite Hp in Hpause.
  destruct (run _).
  - destruct (IH _ Hpause) as (-> & -> & Hrest). rewrite Hbd.
    split; [done|]. split; [done|].
    intros [Hhd Hnc]%Forall_cons.
    destruct (handle_no_space_no_click events st He Hhd) as [<- <-].
    by apply Hrest.
  - split; [done|]. split; [done|].
    intros [Hhd Hnc]%Forall_cons.
    by apply handle_no_space_no_click.
Qed.

End Frames.

Lemma paused_until_space_witness :
  pause (main_loop 7 7 notebook_cell_of_pos
           [[OTHER; KEYDOWN K_OTHER]; [MOUSEBUTTONDOWN (8, 8)]]
           (LoopState blinker_h (boundary 7 7 blinker_h) ∅ true true))
  = true.
Proof.
  apply (paused_until_space 7 7 notebook_cell_of_pos
           [[OTHER; KEYDOWN K_OTHER]; [MOUSEBUTTONDOWN (8, 8)]]
           (LoopState blinker_h (boundary 7 7 blinker_h) ∅ true true)).
  - reflexivity.
  - repeat constructor; discriminate.
Defined.

Lemma dense_step_in_grid (W H : Z) (A : gset cell) : dense_step W H A ⊆ grid W H.
Proof. intros c [_ Hc]%elem_of_filter. done. Qed.

Lemma sparse_is_dense (W H : Z) (A : gset cell) :
  0 < W → 0 < H → A ⊆ grid W H →
  evolution W H A (boundary W H A) = dense_step W H A.
Proof.
  intros HW HH HA. apply evolution_complete; try done.
  - intros c Hc. by apply elem_of_grid, (boundary_in_grid W H A).
  - intros c Hg Hc Hn. apply counted_in_boundary; try done. lia.
Qed.

(** While running, unpaused, with the boundary in step with an alive set
    inside the grid, and with no event other than ignored ones, [main]
    plays the Game of Life: after [n] iterations the alive set is the
    [n]-fold dense step of the initial one, and the boundary is again in
    step with it. *)
Theorem running_follows_life (W H : Z) (cell_of_pos : Z * Z → cell)
    (frames : list (list event)) (st : loop_state) :
  0 < W → 0 < H →
  run st = true → pause st = false →
  boundary_set st = boundary W H (alive_set st) →
  alive_set st ⊆ grid W H →
  Forall (Forall ignored) frames →
  alive_set (main_loop W H cell_of_pos frames st)
  = Nat.iter (length frames) (dense_step W H) (alive_set st)
  ∧ boundary_set (main_loop W H cell_of_pos frames st)
    = boundary W H (alive_set (main_loop W H cell_of_pos frames st)).
Proof.
  intros HW HH Hrun Hpause Hsync Hin Hquiet. revert st Hrun Hpause Hsync Hin.
  induction Hquiet as [|events frames He _ IH]; intros st Hrun Hpause Hsync Hin;
    [done|].
  simpl main_loop. unfold iteration.
  rewrite (handle_ignored W H cell_of_pos events st He), Hrun, Hpause.
  simpl negb. cbv iota. simpl run. cbv iota.
  rewrite Hsync, sparse_is_dense by done.
  destruct (IH (LoopState (dense_step W H (alive_set st))
                  (boundary W H (dense_step W H (alive_set st)))
                  (drawGrid W H (window st) (dense_step W H (alive_set st)))
                  true false)) as [-> ->]; try done.
  - apply dense_step_in_grid.
  - split; [|done]. simpl length. by rewrite Nat.iter_succ_r.
Qed.

Lemma running_follows_life_witness :
  alive_set (main_loop 7 7 notebook_cell_of_pos [[]; [OTHER]]
               (LoopState blinker_h (boundary 7 7 blinker_h) ∅ true false))
  = Nat.iter (length [[]; [OTHER]]) (dense_step 7 7)
      (alive_set (LoopState blinker_h (boundary 7 7 blinker_h) ∅ true false)).
Proof.
  assert (0 < 7) as Hpos by lia.
  assert (alive_set (LoopState blinker_h (boundary 7 7 blinker_h) ∅ true false)
          ⊆ grid 7 7) as Hin
    by (apply (bool_decide_unpack _); vm_compute; exact I).
  assert (Forall (Forall ignored) [[]; [OTHER]]) as Hquiet
    by (repeat constructor).
  exact (proj1 (running_follows_life 7 7 notebook_cell_of_pos [[]; [OTHER]]
                  (LoopState blinker_h (boundary 7 7 blinker_h) ∅ true false)
                  Hpos Hpos eq_refl eq_refl eq_refl Hin Hquiet)).
Defined.

(** A click between two ticks of the running simulation: the boundary is
    not recomputed after the toggle, and the next alive set is the dense
    step of the toggled alive set, except that a cell that was just
    switched off is never revived (the rule revives it when it has three
    alive neighbours). *)
Theorem click_while_running (W H : Z) (cell_of_pos : Z * Z → cell)
    (pos : Z * Z) (st : loop_state) :
  0 < W → 0 < H →
  run st = true → pause st = false →
  boundary_set st = boundary W H (alive_set st) →
  alive_set st ⊆ grid W H →
  in_grid W H (cell_of_pos pos) →
  alive_set (iteration W H cell_of_pos [MOUSEBUTTONDOWN pos] st)
  = if decide (cell_of_pos pos ∈ alive_set st)
    then dense_step W H (alive_set st ∖ {[cell_of_pos pos]})
           ∖ {[cell_of_pos pos]}
    else dense_step W H (alive_set st ∪ {[cell_of_pos pos]}).
Proof.
  intros HW HH Hrun Hpause Hsync Hin Hpos. unfold iteration. simpl.
  rewrite Hrun, Hpause. simpl. rewrite Hsync. case_decide as Hc.
  - by apply evolution_after_removing.
  - apply evolution_complete; try done.
    + intros c [?| ->%elem_of_singleton]%elem_of_union;
        [by apply Hin|by apply elem_of_grid].
    + intros c Hb. by apply elem_of_grid, (boundary_in_grid W H (alive_set st)).
    + intros c Hg Hcn Hn. apply counted_in_boundary; try done.
      * intros HcA. apply Hcn, elem_of_union. by left.
      * pose proof (count_added W H (alive_set st)
                      (alive_set st ∪ {[cell_of_pos pos]}) c) as Hadd.
        assert (size ((alive_set st ∪ {[cell_of_pos pos]}) ∖ alive_set st)
                ≤ 1)%nat as Hone.
        { rewrite <- (size_singleton (C:=gset cell) (cell_of_pos pos)).
          apply subseteq_size. intros x.
          rewrite elem_of_difference, elem_of_union. tauto. }
        lia.
Qed.

Lemma click_while_running_witness :
  alive_set (iteration 100 100 notebook_cell_of_pos
               [MOUSEBUTTONDOWN (43, 47)]
               (LoopState {[ (5, 5); (5, 6); (6, 5); (6, 6) ]}
                  (boundary 100 100 {[ (5, 5); (5, 6); (6, 5); (6, 6) ]})
                  ∅ true false))
  = dense_step 100 100 ({[ (5, 5); (5, 6); (6, 5); (6, 6) ]} ∖ {[ (5, 5) ]})
      ∖ {[ (5, 5) ]}.
Proof.
  assert (0 < 100) as Hpos by lia.
  assert (alive_set (LoopState {[ (5, 5); (5, 6); (6, 5); (6, 6) ]}
                       (boundary 100 100 {[ (5, 5); (5, 6); (6, 5); (6, 6) ]})
                       ∅ true false) ⊆ grid 100 100) as Hin.
  { intros c Hc. apply elem_of_grid. cbn [alive_set] in Hc.
    rewrite !elem_of_union, !elem_of_singleton in Hc.
    destruct_or!; subst c; unfold in_grid; simpl; lia. }
  assert (in_grid 100 100 (notebook_cell_of_pos (43, 47))) as Hpos_in
    by (vm_compute; intuition discriminate).
  pose proof (click_while_running 100 100 notebook_cell_of_pos (43, 47)
                (LoopState {[ (5, 5); (5, 6); (6, 5); (6, 6) ]}
                   (boundary 100 100 {[ (5, 5); (5, 6); (6, 5); (6, 6) ]})
                   ∅ true false)
                Hpos Hpos eq_refl eq_refl eq_refl Hin Hpos_in) as Hw.
  rewrite decide_True in Hw
    by (apply (bool_decide_unpack _); vm_compute; exact I).
  exact Hw.
Defined.

(** Once [QUIT] is met, nothing that comes later is handled: the rest of
    that batch of events and all later batches are dropped, no tick is
    performed, and the loop is left. *)
Theorem quit_cuts_off (W H : Z) (cell_of_pos : Z * Z → cell)
    (frames frames' : list (list event)) (events events' : list event)
    (st : loop_state) :
  main_loop W H cell_of_pos
    (frames ++ (events ++ QUIT :: events') :: frames') st
  = main_loop W H cell_of_pos (frames ++ [events ++ [QUIT]]) st
  ∧ run (main_loop W H cell_of_pos (frames ++ [events ++ [QUIT]]) st) = false
  ∧ (run st = true → Forall (λ evs, QUIT ∉ evs) frames →
     alive_set (main_loop W H cell_of_pos (frames ++ [events ++ [QUIT]]) st)
     = alive_set (handle_events W H cell_of_pos events
                    (main_loop W H cell_of_pos frames st))).
Proof.
  assert (∀ st evs', iteration W H cell_of_pos (events ++ QUIT :: evs') st
                   = handle_events W H cell_of_pos (events ++ [QUIT]) st
                   ∧ run (handle_events W H cell_of_pos (events ++ [QUIT]) st)
                     = false) as Hit.
  { intros st1 evs'. unfold iteration.
    destruct (handle_quit W H cell_of_pos events evs' st1) as [-> _].
    destruct (handle_quit W H cell_of_pos events [] st1) as [_ ->]. done. }
  revert st. induction frames as [|evs frames IH]; intros st.
  - simpl. destruct (Hit st events') as [-> Hr], (Hit st []) as [-> _].
    rewrite Hr. split; [done|]. split; [done|]. intros _ _.
    clear. revert st. induction events as [|[|pos|[]|] events IH]; intros st;
      simpl; try done.
  - simpl. destruct (run (iteration W H cell_of_pos evs st)) eqn:Hrun.
    + destruct (IH (iteration W H cell_of_pos evs st)) as (-> & -> & Halive).
      split; [done|]. split; [done|].
      intros _ [_ Hnq]%Forall_cons. by apply Halive.
    + split; [done|]. split; [done|].
      intros Hst [Hnq _]%Forall_cons. exfalso.
      revert Hrun. unfold iteration.
      assert (run (handle_events W H cell_of_pos evs st) = true) as Hr.
      { clear -Hst Hnq. revert st Hst.
        induction evs as [|[|pos|[]|] evs IH]; intros st Hst; simpl; try done;
          try (apply IH; [|done]; intros Hq; apply Hnq; by right).
        exfalso. apply Hnq. by left. }
      rewrite Hr. simpl. destruct (pause _); simpl; congruence.
Qed.

(** Clicking the same position twice restores the alive set; the boundary
    set is not touched and the window is redrawn for the restored set. *)
Theorem click_twice (W H : Z) (cell_of_pos : Z * Z → cell) (pos : Z * Z)
    (st : loop_state) :
  alive_set (handle_events W H cell_of_pos
               [MOUSEBUTTONDOWN pos; MOUSEBUTTONDOWN pos] st) = alive_set st
  ∧ boundary_set (handle_events W H cell_of_pos
                    [MOUSEBUTTONDOWN pos; MOUSEBUTTONDOWN pos] st)
    = boundary_set st
  ∧ window (handle_events W H cell_of_pos
              [MOUSEBUTTONDOWN pos; MOUSEBUTTONDOWN pos] st)
    = drawGrid W H (window st) (alive_set st).
Proof.
  simpl. unfold click. simpl.
  assert ((if decide (cell_of_pos pos ∈
                (if decide (cell_of_pos pos ∈ alive_set st)
                 then alive_set st ∖ {[cell_of_pos pos]}
                 else alive_set st ∪ {[cell_of_pos pos]}))
           then (if decide (cell_of_pos pos ∈ alive_set st)
                 then alive_set st ∖ {[cell_of_pos pos]}
                 else alive_set st ∪ {[cell_of_pos pos]}) ∖ {[cell_of_pos pos]}
           else (if decide (cell_of_pos pos ∈ alive_set st)
                 then alive_set st ∖ {[cell_of_pos pos]}
                 else alive_set st ∪ {[cell_of_pos pos]}) ∪ {[cell_of_pos pos]})
          = alive_set st) as ->.
  { destruct (decide (cell_of_pos pos ∈ alive_set st)) as [Hc|Hc].
    - rewrite decide_False
        by (rewrite elem_of_difference, elem_of_singleton; tauto).
      apply set_eq. intros x.
      rewrite elem_of_union, elem_of_difference, elem_of_singleton.
      destruct (decide (x = cell_of_pos pos)) as [->|]; tauto.
    - rewrite decide_True
        by (rewrite elem_of_union, elem_of_singleton; tauto).
      apply set_eq. intros x.
      rewrite elem_of_difference, elem_of_union, elem_of_singleton.
      split; [tauto|]. intros Hx. split; [tauto|]. by intros ->. }
  split; [done|]. split; [done|].
  apply map_eq. intros c. rewrite !lookup_drawGrid. by case_decide.
Qed.

(** ** A run on the notebook's own grid *)

(** Cells drawn with the mouse while paused are not in step with the
    boundary set: after drawing a horizontal blinker away from the gun and
    pressing the space bar, the blinker's two births are missed and only
    its centre is left, where the rule gives the vertical blinker. *)
Theorem drawn_blinker_loses_births (randint : nat → Z) :
  ∃ st0 drawn,
    main_init 100 100 "3" randint = Some st0
    ∧ drawn = handle_events 100 100 notebook_cell_of_pos
                [MOUSEBUTTONDOWN (36, 44); MOUSEBUTTONDOWN (44, 44);
                 MOUSEBUTTONDOWN (52, 44)] st0
    ∧ alive_set drawn = gosper_glider_gun 100 100 ∪ blinker_h
    ∧ blinker_v ⊆ dense_step 100 100 (alive_set drawn)
    ∧ alive_set (iteration 100 100 notebook_cell_of_pos [KEYDOWN K_SPACE] drawn)
      ∩ blinker_v = {[ (5, 5) ]}.
Proof.
  eexists (LoopState (gosper_glider_gun 100 100)
             (boundary 100 100 (gosper_glider_gun 100 100))
             (drawGrid 100 100 (fill 100 100 ALIVE_COLOR)
                (gosper_glider_gun 100 100)) true true).
  eexists. split; [reflexivity|]. split; [reflexivity|].
  assert (alive_set
            (handle_events 100 100 notebook_cell_of_pos
               [MOUSEBUTTONDOWN (36, 44); MOUSEBUTTONDOWN (44, 44);
                MOUSEBUTTONDOWN (52, 44)]
               (LoopState (gosper_glider_gun 100 100)
                  (boundary 100 100 (gosper_glider_gun 100 100))
                  (drawGrid 100 100 (fill 100 100 ALIVE_COLOR)
                     (gosper_glider_gun 100 100)) true true))
          = gosper_glider_gun 100 100 ∪ blinker_h) as Hdrawn.
  { cbn [handle_events click alive_set boundary_set window run pause].
    apply (bool_decide_unpack _). vm_compute. exact I. }
  split; [exact Hdrawn|]. split.
  - rewrite Hdrawn. intros c Hc. apply elem_of_dense_step; [lia..|].
    apply elem_of_blinker_v in Hc.
    destruct Hc as [->|[->| ->]]; (split; [vm_compute; intuition discriminate|]).
    + right. split; [|by vm_compute].
      apply (bool_decide_unpack _). vm_compute. exact I.
    + left. split; [|left; by vm_compute].
      apply (bool_decide_unpack _). vm_compute. exact I.
    + right. split; [|by vm_compute].
      apply (bool_decide_unpack _). vm_compute. exact I.
  - unfold iteration.
    cbn [handle_events click alive_set boundary_set window run pause negb].
    apply (bool_decide_unpack _). vm_compute. exact I.
Qed.

(** ** Translations of the torus *)

Lemma mod_add_cancel (n a b d : Z) :
  0 ≤ a < n → 0 ≤ b < n → (a + d) `mod` n = (b + d) `mod` n → a = b.
Proof.
  intros Ha Hb Heq.
  assert ((a - b) `mod` n = 0 ∧ (b - a) `mod` n = 0) as [Hab Hba].
  { replace (a - b) with ((a + d) - (b + d)) by lia.
    replace (b - a) with ((b + d) - (a + d)) by lia.
    rewrite (Zminus_mod (a + d)), (Zminus_mod (b + d)), Heq, Z.sub_diag.
    by rewrite Z.mod_0_l by lia. }
  destruct (Z.le_gt_cases b a).
  - rewrite Z.mod_small in Hab by lia. lia.
  - rewrite Z.mod_small in Hba by lia. lia.
Qed.

Section Translation.

Variables W H : Z.
Variable d : cell.
Hypothesis HW : 0 < W.
Hypothesis HH : 0 < H.

Lemma elem_of_translated (A : gset cell) n :
  n ∈ translate_set W H d A ↔ ∃ c, n = translate W H d c ∧ c ∈ A.
Proof. unfold translate_set. apply elem_of_map. Qed.

Lemma translate_inj c c' :
  in_grid W H c → in_grid W H c' →
  translate W H d c = translate W H d c' → c = c'.
Proof using HW HH.
  unfold translate. rewrite !PBC_torus by done. unfold torus. simpl.
  intros [Hx Hy] [Hx' Hy'] [= Hex Hey]. destruct c, c'. simpl in *.
  f_equal; by eapply mod_add_cancel.
Qed.

Lemma translate_offset c dx dy :
  PBC W H ((translate W H d c).1 + dx) ((translate W H d c).2 + dy)
  = translate W H d (PBC W H (c.1 + dx) (c.2 + dy)).
Proof using HW HH.
  unfold translate. rewrite !PBC_torus by done. unfold torus. simpl.
  rewrite !Zplus_mod_idemp_l. f_equal; f_equal; lia.
Qed.

Lemma contour_translate c :
  contour W H (translate W H d c) = translate_set W H d (contour W H c).
Proof using HW HH.
  apply set_eq. intros n.
  rewrite elem_of_translated, elem_of_contour_offset. split.
  - intros (dx & dy & Hdx & Hdy & Hne & ->).
    exists (PBC W H (c.1 + dx) (c.2 + dy)). split; [apply translate_offset|].
    apply elem_of_contour_offset. by exists dx, dy.
  - intros (m & -> & (dx & dy & Hdx & Hdy & Hne & ->)%elem_of_contour_offset).
    exists dx, dy. by rewrite translate_offset.
Qed.

Lemma elem_of_translate_set (A : gset cell) c :
  A ⊆ grid W H → in_grid W H c →
  translate W H d c ∈ translate_set W H d A ↔ c ∈ A.
Proof using HW HH.
  intros HA Hc. rewrite elem_of_translated. split.
  - intros (c' & Heq & Hc'). apply translate_inj in Heq as ->; try done.
    by apply elem_of_grid, HA.
  - intros HcA. by exists c.
Qed.

Lemma size_translate_set (X : gset cell) :
  X ⊆ grid W H → size (translate_set W H d X) = size X.
Proof using HW HH.
  induction X as [|x X Hx IH] using set_ind_L; intros HX.
  - unfold translate_set. by rewrite set_map_empty.
  - assert (X ⊆ grid W H) as HX'.
    { intros c Hc. apply HX, elem_of_union. by right. }
    assert (in_grid W H x) as Hgx.
    { apply elem_of_grid, HX, elem_of_union. left. by apply elem_of_singleton. }
    replace (translate_set W H d ({[x]} ∪ X))
      with ({[translate W H d x]} ∪ translate_set W H d X)
      by (unfold translate_set;
          by rewrite set_map_union_L, set_map_singleton_L).
    rewrite (size_union {[translate W H d x]} (translate_set W H d X)),
      (size_union {[x]} X), !size_singleton, IH; try done.
    + by apply disjoint_singleton_l.
    + apply disjoint_singleton_l.
      intros Hin. by apply (elem_of_translate_set X x HX' Hgx) in Hin.
Qed.

Lemma count_translate (A : gset cell) c :
  A ⊆ grid W H →
  contour_alive_sum W H (translate W H d c) (translate_set W H d A)
  = contour_alive_sum W H c A.
Proof using HW HH.
  intros HA. rewrite !contour_alive_sum_size, contour_translate.
  rewrite <- (size_translate_set (contour W H c ∩ A)).
  - do 2 f_equal. apply set_eq. intros n.
    rewrite elem_of_intersection. split.
    + intros [(m & -> & Hm)%elem_of_translated Hn].
      apply elem_of_translated. exists m. split; [done|].
      apply elem_of_intersection. split; [done|].
      apply (elem_of_translate_set A m) in Hn; try done.
      by apply (contour_in_grid W H c).
    + intros (m & -> & [Hm HmA]%elem_of_intersection)%elem_of_translated.
      split; apply elem_of_translated; by exists m.
  - intros n [Hn _]%elem_of_intersection.
    by apply elem_of_grid, (contour_in_grid W H c).
Qed.

Lemma boundary_translate (A : gset cell) :
  A ⊆ grid W H →
  boundary W H (translate_set W H d A) = translate_set W H d (boundary W H A).
Proof using HW HH.
  intros HA. apply set_eq. intros n.
  rewrite elem_of_translated, elem_of_boundary. split.
  - intros [Hn (a' & (a & -> & Ha)%elem_of_translated & Hc)].
    rewrite contour_translate in Hc.
    apply elem_of_translated in Hc as (m & -> & Hm).
    exists m. split; [done|]. apply elem_of_boundary. split; [|by exists a].
    intros HmA. apply Hn. apply elem_of_translated. by exists m.
  - intros (m & -> & [Hm (a & Ha & Hma)]%elem_of_boundary). split.
    + intros Hin. apply Hm.
      apply (proj1 (elem_of_translate_set A m HA
                      (contour_in_grid W H a m HW HH Hma)) Hin).
    + exists (translate W H d a). split.
      * apply elem_of_translated. by exists a.
      * rewrite contour_translate. apply elem_of_translated. by exists m.
Qed.

Lemma evolution_translate (A B : gset cell) :
  A ⊆ grid W H →
  evolution W H (translate_set W H d A) (translate_set W H d B)
  = translate_set W H d (evolution W H A B).
Proof using HW HH.
  intros HA. apply set_eq. intros n.
  rewrite elem_of_translated, elem_of_evolution. split.
  - intros [[(c & -> & Hc)%elem_of_translated Hn]
           |[(c & -> & Hc)%elem_of_translated Hn]];
      rewrite count_translate in Hn by done;
      (exists c; split; [done|]); apply elem_of_evolution; tauto.
  - intros (c & -> & [[Hc Hn]|[Hc Hn]]%elem_of_evolution);
      [left|right]; rewrite count_translate by done;
      (split; [|done]); apply elem_of_translated; by exists c.
Qed.

End Translation.

(** The simulation is homogeneous: moving an alive set inside the grid by
    any offset on the torus moves its boundary and its next generation by
    the same offset, and keeps every neighbour count. *)
Theorem tick_translate (W H : Z) (d : cell) (A : gset cell) :
  0 < W → 0 < H → A ⊆ grid W H →
  boundary W H (translate_set W H d A) = translate_set W H d (boundary W H A)
  ∧ (∀ c, contour_alive_sum W H (translate W H d c) (translate_set W H d A)
          = contour_alive_sum W H c A)
  ∧ tick W H (translate_set W H d A, boundary W H (translate_set W H d A))
    = (translate_set W H d (tick W H (A, boundary W H A)).1,
       translate_set W H d (tick W H (A, boundary W H A)).2).
Proof.
  intros HW HH HA. split; [by apply boundary_translate|].
  split; [intros c; by apply count_translate|].
  unfold tick. simpl.
  rewrite (boundary_translate W H d HW HH A HA).
  rewrite (evolution_translate W H d HW HH A (boundary W H A) HA).
  f_equal. apply boundary_translate; try done.
  intros c [Hc|Hc]%evolution_members; [by apply HA|].
  by apply elem_of_grid, (boundary_in_grid W H A).
Qed.

Lemma tick_translate_witness :
  boundary 7 7 (translate_set 7 7 (3, -2) blinker_h)
  = translate_set 7 7 (3, -2) (boundary 7 7 blinker_h).
Proof.
  assert (0 < 7) as Hpos by lia.
  assert (blinker_h ⊆ grid 7 7) as Hin
    by (apply (bool_decide_unpack _); vm_compute; exact I).
  exact (proj1 (tick_translate 7 7 (3, -2) blinker_h Hpos Hpos Hin)).
Defined.
